(** * Dependency-resolving node-graph migration engine

    A shallow embedding of the migration toolkit's core:
    - [update_subgraph.py]: the subgraph composer
      ([_normalize_ids], [map_and_preserve_all_nodes], [merge_steps]);
    - [universal_node_creator.py]: dependency analysis, the creation
      scheduler and the subgraph step mapping;
    - [universal_metadata_updater.py]: the reference remapper;
    - [universal_subgraph_migration.py]: the node store fetch, discovery
      and classification.

    Python dictionaries keyed by strings are [gmap string _], Python sets
    of strings are [gset string], lists are lists.  Mutable attributes of
    the Python objects ([self.node_id_mapping], [self.node_cache], ...)
    are threaded explicitly as a state record. *)

From stdpp Require Import gmap strings list pretty.

(* ===================================================================== *)
(** * Part I: definitions                                                 *)
(* ===================================================================== *)

(** ** Python values read from JSON *)

(** A Python float is observed by the code only through its truth value
    and through [str]; it is represented by these two observations. *)
Record pyfloat := PyFloat { float_nonzero : bool; float_repr : string }.

(** Hashable JSON leaves: [None], booleans, integers, floats, strings. *)
Inductive scalar :=
| SNone
| SBool (b : bool)
| SInt (z : Z)
| SFloat (f : pyfloat)
| SStr (s : string).

(** Python's [str(v)] on a scalar. *)
Definition py_str (v : scalar) : string :=
  match v with
  | SNone => "None"
  | SBool true => "True"
  | SBool false => "False"
  | SInt z => pretty z
  | SFloat f => float_repr f
  | SStr s => s
  end.

(** Python's truth value of a scalar: [None], [False], [0], [0.0] and
    the empty string are falsy. *)
Definition scalar_truthy (v : scalar) : bool :=
  match v with
  | SNone => false
  | SBool b => b
  | SInt z => negb (Z.eqb z 0)
  | SFloat f => float_nonzero f
  | SStr s => negb (String.eqb s "")
  end.

(** The identifier mapping: original node id (a JSON object key, hence a
    string) to the id the platform assigned. *)
Abbreviation idmap := (gmap string scalar).

(** ** update_subgraph.py *)

(** [_normalize_ids(id_list)]: [[str(x) for x in (id_list or [])]]. *)
Definition _normalize_ids (id_list : option (list scalar)) : list string :=
  py_str <$> default [] id_list.

(** [node_references and key in node_references], then the value. *)
Definition node_references_get (node_references : option (gmap string scalar))
    (key : string) : option scalar :=
  match node_references with
  | Some refs => refs !! key
  | None => None
  end.

(** The [for node_id in original_nodes] loop of
    [map_and_preserve_all_nodes], with its two accumulators. *)
Fixpoint map_and_preserve_loop (original_nodes : list scalar)
    (node_id_mapping : idmap) (node_references : option (gmap string scalar))
    (mapped_nodes unmapped_nodes : list string) : list string * list string :=
  match original_nodes with
  | [] => (mapped_nodes, unmapped_nodes)
  | node_id :: rest =>
      let key := py_str node_id in
      match node_id_mapping !! key with
      | Some v =>
          map_and_preserve_loop rest node_id_mapping node_references
            (mapped_nodes ++ [py_str v]) unmapped_nodes
      | None =>
          match node_references_get node_references key with
          | Some r =>
              map_and_preserve_loop rest node_id_mapping node_references
                (mapped_nodes ++ [py_str r]) unmapped_nodes
          | None =>
              map_and_preserve_loop rest node_id_mapping node_references
                mapped_nodes (unmapped_nodes ++ [key])
          end
      end
  end.

Definition map_and_preserve_all_nodes (original_nodes : list scalar)
    (node_id_mapping : idmap) (node_references : option (gmap string scalar))
    : list string * nat :=
  let '(mapped_nodes, unmapped_nodes) :=
    map_and_preserve_loop original_nodes node_id_mapping node_references [] [] in
  (mapped_nodes ++ unmapped_nodes, length unmapped_nodes).

(** What a member id is replaced by, if anything: its identifier-mapping
    entry, else its node-reference entry. *)
Definition member_target (node_id_mapping : idmap)
    (node_references : option (gmap string scalar)) (key : string)
    : option string :=
  match node_id_mapping !! key with
  | Some v => Some (py_str v)
  | None => py_str <$> node_references_get node_references key
  end.

(** The loop of [merge_steps] over the concatenated id list. *)
Fixpoint merge_steps_loop (ids : list string) (seen : gset string)
    (merged : list string) : list string :=
  match ids with
  | [] => merged
  | nid :: rest =>
      if decide (nid ∈ seen) then merge_steps_loop rest seen merged
      else merge_steps_loop rest ({[nid]} ∪ seen) (merged ++ [nid])
  end.

Definition merge_steps (existing_steps mapped_steps : option (list scalar))
    : list string :=
  merge_steps_loop (_normalize_ids existing_steps ++ _normalize_ids mapped_steps)
    ∅ [].

(** The ids [merge_steps] appends to an empty [merged], written as a plain
    recursion over the input (used to reason about the loop). *)
Fixpoint fresh_ids (ids : list string) (seen : gset string) : list string :=
  match ids with
  | [] => []
  | nid :: rest =>
      if decide (nid ∈ seen) then fresh_ids rest seen
      else nid :: fresh_ids rest ({[nid]} ∪ seen)
  end.

(** One pass of [main] for a subgraph: map the original members, read the
    live steps ([get_subgraph_steps] returns normalized ids), merge. *)
Definition compose_subgraph (original_nodes : list scalar)
    (node_id_mapping : idmap) (node_references : option (gmap string scalar))
    (current_steps : list string) : list string * nat :=
  let '(all_nodes, unmapped_count) :=
    map_and_preserve_all_nodes original_nodes node_id_mapping node_references in
  (merge_steps (Some (SStr <$> current_steps)) (Some (SStr <$> all_nodes)),
   unmapped_count).

(** ** universal_node_creator.py: subgraph step mapping *)

(** The [for step in original_steps] loop of
    [create_subgraphs_from_original]: mapped steps and the unmapped count. *)
Fixpoint create_subgraphs_steps_loop (original_steps : list scalar)
    (node_id_mapping : idmap) (mapped_steps : list scalar) (unmapped_count : nat)
    : list scalar * nat :=
  match original_steps with
  | [] => (mapped_steps, unmapped_count)
  | step :: rest =>
      let original_id := py_str step in
      match node_id_mapping !! original_id with
      | Some new_id =>
          create_subgraphs_steps_loop rest node_id_mapping
            (mapped_steps ++ [new_id]) unmapped_count
      | None =>
          create_subgraphs_steps_loop rest node_id_mapping
            mapped_steps (unmapped_count + 1)
      end
  end.

Definition create_subgraphs_mapped_steps (original_steps : list scalar)
    (node_id_mapping : idmap) : list scalar * nat :=
  create_subgraphs_steps_loop original_steps node_id_mapping [] 0.

(** ** The exported node representation *)

(** Arbitrary JSON values, for the fields the code passes through or only
    tests ([isinstance], truth value). *)
#[local] Unset Elimination Schemes.
Inductive json :=
| JScalar (v : scalar)
| JList (l : list json)
| JDict (d : list (string * json)).
#[local] Set Elimination Schemes.

Definition json_truthy (j : json) : bool :=
  match j with
  | JScalar v => scalar_truthy v
  | JList [] => false
  | JList (_ :: _) => true
  | JDict [] => false
  | JDict (_ :: _) => true
  end.

(** [d.get(key)] on a JSON object. *)
Fixpoint dict_get (d : list (string * json)) (key : string) : option json :=
  match d with
  | [] => None
  | (k, v) :: rest => if String.eqb k key then Some v else dict_get rest key
  end.

(** A column reference [{nodeID, columnID}]; [.get] yields [None] for an
    absent key, which the code does not tell from a JSON [null]. *)
Record col_ref := ColRef {
  ref_nodeID : scalar;
  ref_columnID : json
}.

(** A column source; an absent [columnReferences] reads as the empty list. *)
Record source := Source {
  src_transform : option json;
  src_columnReferences : list col_ref
}.

(** A column descriptor: the keys the code reads.  [None] is an absent key;
    an absent [sources] reads as the empty list. *)
Record column := Column {
  col_name : option json;
  col_dataType : option json;
  col_nullable : option json;
  col_description : option json;
  col_columnID : option scalar;
  col_defaultValue : option json;
  col_primaryKey : option json;
  col_sources : list source;
  col_config : option json
}.

(** A [sourceMapping] entry; [aliases] maps an alias name to a node id. *)
Record source_map := SourceMap {
  sm_aliases : gmap string scalar;
  sm_customSQL : option json;
  sm_dependencies : option json;
  sm_join : option json;
  sm_name : option json;
  sm_noLinkRefs : option json
}.

(** A node's [metadata]; absent [columns] and [sourceMapping] read as the
    empty list. *)
Record metadata := Metadata {
  md_columns : list column;
  md_sourceMapping : list source_map;
  md_cteString : option json;
  md_appliedNodeTests : option json;
  md_enabledColumnTestIDs : option json
}.

Definition empty_metadata : metadata := Metadata [] [] None None None.

(** A node as exported or fetched: the keys the code reads, and the names
    of any other keys present (a dict is falsy only when it has no key). *)
Record node := Node {
  node_name : option string;
  node_type : option string;
  node_nodeType : option string;
  node_config : option json;
  node_metadata : option metadata;
  node_other_keys : list string
}.

(** [node_data.get('metadata', {})] *)
Definition get_metadata (node_data : node) : metadata :=
  default empty_metadata (node_metadata node_data).

(** Truth value of a node dict: it has at least one key. *)
Definition node_truthy (node_data : node) : bool :=
  bool_decide (is_Some (node_name node_data))
  || bool_decide (is_Some (node_type node_data))
  || bool_decide (is_Some (node_nodeType node_data))
  || bool_decide (is_Some (node_config node_data))
  || bool_decide (is_Some (node_metadata node_data))
  || match node_other_keys node_data with [] => false | _ :: _ => true end.

(** ** universal_metadata_updater.py: the reference remapper *)

(** Lookup of an arbitrary scalar in the string-keyed mapping: only a
    string can equal a key. *)
Definition idmap_get (node_id_mapping : idmap) (k : scalar) : option scalar :=
  match k with
  | SStr s => node_id_mapping !! s
  | _ => None
  end.

(** [node_id_mapping.get(original_node_id, original_node_id)] *)
Definition map_node_id (node_id_mapping : idmap) (original_node_id : scalar)
    : scalar :=
  default original_node_id (idmap_get node_id_mapping original_node_id).

(** Body of the [for col_ref in original_col_refs] loop: a reference is
    kept only when both its node id and its column id are truthy. *)
Definition proper_col_ref (node_id_mapping : idmap) (r : col_ref)
    : option col_ref :=
  if scalar_truthy (ref_nodeID r) && json_truthy (ref_columnID r)
  then Some (ColRef (map_node_id node_id_mapping (ref_nodeID r)) (ref_columnID r))
  else None.

(** Body of the [for source in original_sources] loop. *)
Definition proper_source (node_id_mapping : idmap) (s : source) : source :=
  {| src_transform := Some (default (JScalar (SStr "")) (src_transform s));
     src_columnReferences :=
       omap (proper_col_ref node_id_mapping) (src_columnReferences s) |}.

(** ['defaultValue' in col and col['defaultValue'] and
    isinstance(col['defaultValue'], (str, int, float, bool))], then
    [str(col['defaultValue'])]. *)
Definition proper_default_value (d : option json) : option json :=
  match d with
  | Some (JScalar SNone) => None
  | Some (JScalar v) =>
      if scalar_truthy v then Some (JScalar (SStr (py_str v))) else None
  | _ => None
  end.

(** ['primaryKey' in col and isinstance(col['primaryKey'], bool)] *)
Definition proper_primary_key (p : option json) : option json :=
  match p with
  | Some (JScalar (SBool b)) => Some (JScalar (SBool b))
  | _ => None
  end.

(** ['config' in col and isinstance(col['config'], dict)] *)
Definition proper_config (c : option json) : option json :=
  match c with
  | Some (JDict d) => Some (JDict d)
  | _ => None
  end.

(** Body of the [for col in original_columns] loop. *)
Definition proper_column (node_id_mapping : idmap) (col : column) : column :=
  {| col_name := Some (default (JScalar (SStr "UNKNOWN_COLUMN")) (col_name col));
     col_dataType := Some (default (JScalar (SStr "VARCHAR")) (col_dataType col));
     col_nullable := Some (default (JScalar (SBool true)) (col_nullable col));
     col_description := Some (default (JScalar (SStr "")) (col_description col));
     col_columnID := (λ v, SStr (py_str v)) <$> col_columnID col;
     col_defaultValue := proper_default_value (col_defaultValue col);
     col_primaryKey := proper_primary_key (col_primaryKey col);
     col_sources := proper_source node_id_mapping <$> col_sources col;
     col_config := proper_config (col_config col) |}.

(** Body of the [for source_map in original_source_mapping] loop. *)
Definition proper_source_map (node_id_mapping : idmap) (sm : source_map)
    : source_map :=
  {| sm_aliases := map_node_id node_id_mapping <$> sm_aliases sm;
     sm_customSQL :=
       Some (default (JDict [("customSQL", JScalar (SStr ""))]) (sm_customSQL sm));
     sm_dependencies := Some (default (JList []) (sm_dependencies sm));
     sm_join := Some (default (JDict []) (sm_join sm));
     sm_name := Some (default (JScalar (SStr "default")) (sm_name sm));
     sm_noLinkRefs := Some (default (JList []) (sm_noLinkRefs sm)) |}.

(** [build_proper_metadata(original_node_data, node_id_mapping)]; the
    result is [None] when the node has no columns. *)
Definition build_proper_metadata (original_node_data : node)
    (node_id_mapping : idmap) : option metadata :=
  let original_metadata := get_metadata original_node_data in
  match md_columns original_metadata with
  | [] => None
  | original_columns =>
      Some {| md_columns := proper_column node_id_mapping <$> original_columns;
              md_sourceMapping :=
                proper_source_map node_id_mapping
                  <$> md_sourceMapping original_metadata;
              md_cteString := md_cteString original_metadata;
              md_appliedNodeTests := md_appliedNodeTests original_metadata;
              md_enabledColumnTestIDs :=
                md_enabledColumnTestIDs original_metadata |}
  end.

(** ** Iteration over Python sets *)

(** The order in which Python yields the elements of a set of strings
    depends on their hashes; it is left open: any enumeration of the set
    without repetition. *)
Record set_order := SetOrder {
  iter : gset string → list string;
  iter_perm : ∀ s, iter s ≡ₚ elements s
}.

Definition elements_order : set_order :=
  {| iter := elements; iter_perm := λ s, reflexivity (elements s) |}.

(** ** universal_node_creator.py: dependency analysis *)

(** The [nodeID] of every column reference of every source of every
    column, in document order. *)
Definition column_ref_ids (md : metadata) : list scalar :=
  c ← md_columns md; s ← col_sources c; ref_nodeID <$> src_columnReferences s.

(** [if predecessor_id and predecessor_id != node_id], on string ids.  An
    id that is not a string is added to the Python set as well, but it can
    never be a key of [all_nodes] and so never reaches the result; the set
    below holds the string ids only. *)
Definition predecessor_candidate (node_id : string) (predecessor_id : scalar)
    : option string :=
  match predecessor_id with
  | SStr s => if bool_decide (s ≠ "" ∧ s ≠ node_id) then Some s else None
  | _ => None
  end.

(** The set [predecessors] built for one node. *)
Definition predecessors (node_id : string) (node_data : node) : gset string :=
  list_to_set (omap (predecessor_candidate node_id)
                 (column_ref_ids (get_metadata node_data))).

(** [analyze_dependencies(all_nodes)]:
    [valid_predecessors = [pid for pid in predecessors if pid in all_nodes]]. *)
Definition analyze_dependencies (o : set_order) (all_nodes : gmap string node)
    : gmap string (list string) :=
  map_imap (λ node_id node_data,
      Some (filter (λ pid, pid ∈ dom all_nodes)
              (iter o (predecessors node_id node_data))))
    all_nodes.

(** ** universal_node_creator.py: node creation *)

(** What the platform answers to one of the two configuration [PUT]s. *)
Inductive put_outcome :=
| PutOk
| PutRejected (status : Z)
| PutRaised (msg : string).

(** What the platform answers to the creation [POST] of one node, with
    the answers its configuration [PUT]s would get: a status other than
    200/201, an exception ([requests] or JSON decoding), or a 2xx body
    with the given [id] ([SNone] when the body has none). *)
Inductive create_outcome :=
| PostRejected (status : Z)
| PostRaised (msg : string)
| PostOk (new_node_id : scalar) (hash_put cleaned_put : put_outcome).

(** The remote platform as seen by the creator: the answer to the k-th call
    for a node and a predecessor list. *)
Definition world := nat → string → list scalar → create_outcome.

Record creation_error := CreationError {
  err_type : string;
  err_original_id : string;
  err_new_id : option scalar
}.

Record created_node := CreatedNode {
  cn_original_id : string;
  cn_new_id : scalar;
  cn_type : string;
  cn_predecessor_count : nat;
  cn_hash_keys_included : bool
}.

(** One call of [create_node_via_api], as observed from outside: the node,
    the predecessor ids passed, the identifier mapping at the time of the
    call, the platform's answer (none in a dry run) and whether the call
    returned a truthy result. *)
Record api_call := ApiCall {
  call_node_id : string;
  call_predecessor_ids : list scalar;
  call_mapping : idmap;
  call_outcome : option create_outcome;
  call_result : bool
}.

(** The mutable attributes of [EnhancedNodeCreator]; [api_calls] is not an
    attribute of the class but the log of the calls made so far. *)
Record creator := Creator {
  node_id_mapping : idmap;
  created_nodes : list created_node;
  creation_errors : list creation_error;
  hash_key_success : list scalar;
  hash_key_failures : list scalar;
  test_hash_keys : bool;
  api_calls : list api_call
}.

(** The attributes as [__init__] sets them. *)
Definition new_creator : creator :=
  {| node_id_mapping := ∅; created_nodes := []; creation_errors := [];
     hash_key_success := []; hash_key_failures := [];
     test_hash_keys := true; api_calls := [] |}.

Definition set_mapping (st : creator) (k : string) (v : scalar) : creator :=
  {| node_id_mapping := <[k := v]> (node_id_mapping st);
     created_nodes := created_nodes st; creation_errors := creation_errors st;
     hash_key_success := hash_key_success st;
     hash_key_failures := hash_key_failures st;
     test_hash_keys := test_hash_keys st; api_calls := api_calls st |}.

Definition add_error (st : creator) (e : creation_error) : creator :=
  {| node_id_mapping := node_id_mapping st;
     created_nodes := created_nodes st;
     creation_errors := creation_errors st ++ [e];
     hash_key_success := hash_key_success st;
     hash_key_failures := hash_key_failures st;
     test_hash_keys := test_hash_keys st; api_calls := api_calls st |}.

Definition add_created (st : creator) (c : created_node) : creator :=
  {| node_id_mapping := node_id_mapping st;
     created_nodes := created_nodes st ++ [c];
     creation_errors := creation_errors st;
     hash_key_success := hash_key_success st;
     hash_key_failures := hash_key_failures st;
     test_hash_keys := test_hash_keys st; api_calls := api_calls st |}.

Definition add_hash_success (st : creator) (new_id : scalar) : creator :=
  {| node_id_mapping := node_id_mapping st;
     created_nodes := created_nodes st; creation_errors := creation_errors st;
     hash_key_success := hash_key_success st ++ [new_id];
     hash_key_failures := hash_key_failures st;
     test_hash_keys := test_hash_keys st; api_calls := api_calls st |}.

Definition add_hash_failure (st : creator) (new_id : scalar) : creator :=
  {| node_id_mapping := node_id_mapping st;
     created_nodes := created_nodes st; creation_errors := creation_errors st;
     hash_key_success := hash_key_success st;
     hash_key_failures := hash_key_failures st ++ [new_id];
     test_hash_keys := test_hash_keys st; api_calls := api_calls st |}.

Definition log_call (st : creator) (c : api_call) : creator :=
  {| node_id_mapping := node_id_mapping st;
     created_nodes := created_nodes st; creation_errors := creation_errors st;
     hash_key_success := hash_key_success st;
     hash_key_failures := hash_key_failures st;
     test_hash_keys := test_hash_keys st; api_calls := api_calls st ++ [c] |}.

(** [f"{n:03d}"] for a natural number. *)
Definition format_03d (n : nat) : string :=
  let s := pretty n in
  match String.length s with
  | 0 => "000" +:+ s
  | 1 => "00" +:+ s
  | 2 => "0" +:+ s
  | _ => s
  end.

(** [node_data.get('nodeType', 'Stage')] *)
Definition node_type_or_stage (node_data : node) : string :=
  default "Stage" (node_nodeType node_data).

(** Steps 2a and 2b of [create_node_via_api], after the node exists and
    has been entered in the mapping: the state, and [hash_success] unless a
    [PUT] raised. *)
Definition configure_created_node (node_id : string) (new_node_id : scalar)
    (hash_put cleaned_put : put_outcome) (st : creator)
    : creator * option bool :=
  let step_2a : creator * option bool :=
    if test_hash_keys st then
      match hash_put with
      | PutOk => (add_hash_success st new_node_id, Some true)
      | PutRejected _ => (add_hash_failure st new_node_id, Some false)
      | PutRaised _ => (st, None)
      end
    else (st, Some false) in
  match step_2a with
  | (st, Some false) =>
      match cleaned_put with
      | PutOk => (st, Some false)
      | PutRejected _ =>
          (add_error st
             (CreationError "cleaned_config_update" node_id (Some new_node_id)),
           Some false)
      | PutRaised _ => (st, None)
      end
  | done_or_raised => done_or_raised
  end.

(** [create_node_via_api(workspace_id, node_id, node_data, predecessor_ids,
    dry_run)]: the truth value of the returned object and the new state. *)
Definition create_node_via_api (w : world) (node_id : string) (node_data : node)
    (predecessor_ids : list scalar) (dry_run : bool) (st : creator)
    : bool * creator :=
  let call := ApiCall node_id predecessor_ids (node_id_mapping st) in
  if dry_run then
    let fake_new_id := "new_" +:+ format_03d (size (node_id_mapping st) + 1) in
    (true, log_call (set_mapping st node_id (SStr fake_new_id)) (call None true))
  else
    let answer := w (length (api_calls st)) node_id predecessor_ids in
    match answer with
    | PostRejected _ =>
        (false, log_call (add_error st (CreationError "node_creation" node_id None))
                  (call (Some answer) false))
    | PostRaised _ =>
        (false, log_call (add_error st (CreationError "exception" node_id None))
                  (call (Some answer) false))
    | PostOk new_node_id hash_put cleaned_put =>
        if scalar_truthy new_node_id then
          let st := set_mapping st node_id new_node_id in
          match configure_created_node node_id new_node_id hash_put cleaned_put st
          with
          | (st, None) =>
              (false,
               log_call (add_error st (CreationError "exception" node_id None))
                 (call (Some answer) false))
          | (st, Some hash_success) =>
              (true,
               log_call
                 (add_created st
                    (CreatedNode node_id new_node_id (node_type_or_stage node_data)
                       (length predecessor_ids) hash_success))
                 (call (Some answer) true))
          end
        else
          (false, log_call st (call (Some answer) false))
    end.

(** ** universal_node_creator.py: the creation scheduler *)

(** [dependencies.get(node_id, [])] *)
Definition deps_of (dependencies : gmap string (list string)) (node_id : string)
    : list string :=
  default [] (dependencies !! node_id).

(** [[dep for dep in node_deps if dep not in self.node_id_mapping]] *)
Definition unsatisfied_deps (dependencies : gmap string (list string))
    (mapping : idmap) (node_id : string) : list string :=
  filter (λ dep, mapping !! dep = None) (deps_of dependencies node_id).

(** The first loop of a round: the remaining nodes without unsatisfied
    dependencies, in set order. *)
Definition find_ready_nodes (o : set_order)
    (dependencies : gmap string (list string))
    (mapping : idmap) (remaining_nodes : gset string) : list string :=
  filter (λ node_id, unsatisfied_deps dependencies mapping node_id = [])
    (iter o remaining_nodes).

(** Python's [min] over a non-empty sequence of numbers (it raises on an
    empty one, which the scheduler never passes). *)
Definition py_min (l : list nat) : nat :=
  match l with
  | [] => 0
  | x :: rest => foldr Nat.min x rest
  end.

(** The forced-progress branch: [min_deps] and the nodes that attain it. *)
Definition min_deps (o : set_order) (dependencies : gmap string (list string))
    (mapping : idmap) (remaining_nodes : gset string) : nat :=
  py_min ((λ nid, length (unsatisfied_deps dependencies mapping nid))
            <$> iter o remaining_nodes).

Definition forced_nodes (o : set_order) (dependencies : gmap string (list string))
    (mapping : idmap) (remaining_nodes : gset string) : list string :=
  filter (λ nid, length (unsatisfied_deps dependencies mapping nid)
                 = min_deps o dependencies mapping remaining_nodes)
    (iter o remaining_nodes).

(** [ready_nodes] as the creation loop of a round receives it. *)
Definition select_round_nodes (o : set_order)
    (dependencies : gmap string (list string))
    (mapping : idmap) (remaining_nodes : gset string) : list string :=
  match find_ready_nodes o dependencies mapping remaining_nodes with
  | [] => forced_nodes o dependencies mapping remaining_nodes
  | ready_nodes => ready_nodes
  end.

(** [[self.node_id_mapping.get(dep_id, dep_id) for dep_id in original_deps
    if dep_id in self.node_id_mapping]] *)
Definition mapped_deps (mapping : idmap) (original_deps : list string)
    : list scalar :=
  omap (λ dep_id, mapping !! dep_id) original_deps.

(** The [for node_id in ready_nodes] loop of a round.  [all_nodes[node_id]]
    raises [KeyError] for an id that is not a key; the loop then ends (the
    scheduler only passes keys of [all_nodes]). *)
Fixpoint create_ready_nodes (w : world) (all_nodes : gmap string node)
    (dependencies : gmap string (list string)) (dry_run : bool)
    (ready_nodes : list string) (st : creator) (remaining_nodes : gset string)
    (round_success : nat) : creator * gset string * nat :=
  match ready_nodes with
  | [] => (st, remaining_nodes, round_success)
  | node_id :: rest =>
      match all_nodes !! node_id with
      | None => (st, remaining_nodes, round_success)
      | Some node_data =>
          let original_deps := deps_of dependencies node_id in
          let '(result, st) :=
            create_node_via_api w node_id node_data
              (mapped_deps (node_id_mapping st) original_deps) dry_run st in
          create_ready_nodes w all_nodes dependencies dry_run rest st
            (remaining_nodes ∖ {[node_id]})
            (if result then S round_success else round_success)
      end
  end.

(** One iteration of the [while] loop body, up to the no-progress test. *)
Definition creation_round (o : set_order) (w : world)
    (all_nodes : gmap string node) (dependencies : gmap string (list string))
    (dry_run : bool) (st : creator) (remaining_nodes : gset string)
    : creator * gset string * nat :=
  create_ready_nodes w all_nodes dependencies dry_run
    (select_round_nodes o dependencies (node_id_mapping st) remaining_nodes)
    st remaining_nodes 0.

(** The [while remaining_nodes and creation_rounds < max_rounds] loop;
    [fuel] is [max_rounds - creation_rounds].  Returns the state, the nodes
    still remaining and [created_count]. *)
Fixpoint creation_loop (fuel : nat) (o : set_order) (w : world)
    (all_nodes : gmap string node) (dependencies : gmap string (list string))
    (dry_run : bool) (st : creator) (remaining_nodes : gset string)
    (created_count : nat) : creator * gset string * nat :=
  match fuel with
  | 0 => (st, remaining_nodes, created_count)
  | S fuel =>
      if decide (remaining_nodes = ∅) then (st, remaining_nodes, created_count)
      else
        let '(st, remaining_nodes, round_success) :=
          creation_round o w all_nodes dependencies dry_run st remaining_nodes in
        let created_count := (created_count + round_success)%nat in
        if decide (round_success = 0%nat ∧ remaining_nodes ≠ ∅)
        then (st, remaining_nodes, created_count)
        else creation_loop fuel o w all_nodes dependencies dry_run st
               remaining_nodes created_count
  end.

(** [create_nodes_in_dependency_order(workspace_id, all_nodes, dependencies,
    dry_run)]: the new state and [created_count]. *)
Definition create_nodes_in_dependency_order (o : set_order) (w : world)
    (all_nodes : gmap string node) (dependencies : gmap string (list string))
    (dry_run : bool) (st : creator) : creator * nat :=
  let max_rounds := (size all_nodes + 10)%nat in
  let '(st, _, created_count) :=
    creation_loop max_rounds o w all_nodes dependencies dry_run st
      (dom all_nodes) 0 in
  (st, created_count).

(** ** Observations on a creator state, used to state the scheduler's
    properties *)

(** The nodes [create_node_via_api] has been called for, in call order. *)
Definition attempted (st : creator) : list string :=
  call_node_id <$> api_calls st.

(** The original ids recorded in [creation_errors]. *)
Definition err_ids (st : creator) : list string :=
  err_original_id <$> creation_errors st.

(** Whether configuring a created node records an error (the cleaned
    [PUT] is rejected, or a [PUT] raises), and whether a [PUT] raises. *)
Definition config_fails (hash_keys : bool) (hash_put cleaned_put : put_outcome)
    : bool :=
  match (if hash_keys then hash_put else PutRejected 0) with
  | PutOk => false
  | PutRaised _ => true
  | PutRejected _ =>
      match cleaned_put with
      | PutOk => false
      | _ => true
      end
  end.

Definition config_raises (hash_keys : bool) (hash_put cleaned_put : put_outcome)
    : bool :=
  match (if hash_keys then hash_put else PutRejected 0) with
  | PutOk => false
  | PutRaised _ => true
  | PutRejected _ =>
      match cleaned_put with
      | PutRaised _ => true
      | _ => false
      end
  end.

(** Summary of one call by the platform's answer ([None]: dry run): is
    the node entered in the mapping, is an error recorded for it, is the
    returned object truthy. *)
Definition call_effect (hash_keys : bool) (outcome : option create_outcome)
    : bool * bool * bool :=
  match outcome with
  | None => (true, false, true)
  | Some (PostRejected _) => (false, true, false)
  | Some (PostRaised _) => (false, true, false)
  | Some (PostOk new_node_id hash_put cleaned_put) =>
      if scalar_truthy new_node_id
      then (true, config_fails hash_keys hash_put cleaned_put,
            negb (config_raises hash_keys hash_put cleaned_put))
      else (false, false, false)
  end.

(** The id a call enters in the mapping, if any. *)
Definition call_new_id (mapping : idmap) (outcome : option create_outcome)
    : option scalar :=
  match outcome with
  | None => Some (SStr ("new_" +:+ format_03d (size mapping + 1)))
  | Some (PostOk new_node_id _ _) =>
      if scalar_truthy new_node_id then Some new_node_id else None
  | Some _ => None
  end.

(** A logged call agrees with the state: the node is a key of the mapping,
    and has an error record, exactly as the platform's answer to the call
    determines. *)
Definition call_ok (dry_run : bool) (st : creator) (c : api_call) : Prop :=
  let eff := call_effect (test_hash_keys st) (call_outcome c) in
  (call_node_id c ∈ dom (node_id_mapping st) ↔ eff.1.1 = true)
  ∧ (call_node_id c ∈ err_ids st ↔ eff.1.2 = true)
  ∧ call_result c = eff.2
  ∧ (call_outcome c = None ↔ dry_run = true).

(** The scheduler's loop invariant. *)
Record sched_inv (all_nodes : gmap string node) (dry_run : bool)
    (st : creator) (remaining : gset string) : Prop := SchedInv {
  inv_nodup : NoDup (attempted st);
  inv_attempted : ∀ n, n ∈ attempted st → n ∈ dom all_nodes ∧ n ∉ remaining;
  inv_remaining : ∀ n, n ∈ dom all_nodes → n ∈ attempted st ∨ n ∈ remaining;
  inv_remaining_sub : remaining ⊆ dom all_nodes;
  inv_mapping : ∀ n, n ∈ dom (node_id_mapping st) → n ∈ attempted st;
  inv_errors : ∀ n, n ∈ err_ids st → n ∈ attempted st;
  inv_hash_keys : test_hash_keys st = true;
  inv_calls : ∀ c, c ∈ api_calls st → call_ok dry_run st c
}.

(** ** Example data: the scenario of the specification *)

(** A node with one column whose single source refers to the given nodes. *)
Definition lineage_node (name type : string) (refs : list string) : node :=
  {| node_name := Some name; node_type := Some type; node_nodeType := Some type;
     node_config := None;
     node_metadata :=
       Some {| md_columns :=
                 [ {| col_name := Some (JScalar (SStr "ID"));
                      col_dataType := None; col_nullable := None;
                      col_description := None; col_columnID := None;
                      col_defaultValue := None; col_primaryKey := None;
                      col_sources :=
                        [ {| src_transform := None;
                             src_columnReferences :=
                               (λ r, ColRef (SStr r) (JScalar (SStr "c1")))
                                 <$> refs |} ];
                      col_config := None |} ];
               md_sourceMapping := []; md_cteString := None;
               md_appliedNodeTests := None; md_enabledColumnTestIDs := None |};
     node_other_keys := [] |}.

(** The hub and the satellite of the scenario; the satellite refers to the
    hub, to the stage node (not part of the set) and to itself. *)
Definition scenario_nodes : gmap string node :=
  {[ "H_CUSTOMER" := lineage_node "H_CUSTOMER" "Hub" [];
     "S_CUSTOMER_CURRENT" :=
       lineage_node "S_CUSTOMER_CURRENT" "Satellite"
         ["H_CUSTOMER"; "STG_CUSTOMER"; "S_CUSTOMER_CURRENT"] ]}.

Definition scenario_dependencies : gmap string (list string) :=
  analyze_dependencies elements_order scenario_nodes.

(** A platform that rejects every creation request. *)
Definition rejecting_world : world := λ _ _ _, PostRejected 500.

(** A platform that creates every node but rejects its configuration. *)
Definition misconfiguring_world : world :=
  λ k _ _, PostOk (SInt (Z.of_nat k + 1)) (PutRejected 400) (PutRejected 400).

(** ** Strings *)

(** [sub in s] *)
Fixpoint str_contains (sub s : string) : bool :=
  String.prefix sub s
  || match s with
     | EmptyString => false
     | String _ rest => str_contains sub rest
     end.

(** [s.lower()], on the ASCII letters. *)
Definition ascii_lower (c : Ascii.ascii) : Ascii.ascii :=
  let n := Ascii.nat_of_ascii c in
  if (65 <=? n)%nat && (n <=? 90)%nat then Ascii.ascii_of_nat (n + 32) else c.

Fixpoint str_lower (s : string) : string :=
  match s with
  | EmptyString => EmptyString
  | String c rest => String (ascii_lower c) (str_lower rest)
  end.

(** ** universal_subgraph_migration.py: the node store *)

(** What a [GET] of a node yields: a status code with the decoded body
    ([inl msg] when decoding it raises), or an exception of [requests].
    The body is the node representation, its [data] envelope removed. *)
Inductive response :=
| HttpResponse (status_code : Z) (body : string + node)
| RequestRaised (msg : string).

(** The remote platform as seen by the migration tool: the answer to the
    k-th remote read, for a workspace and a node id. *)
Definition remote := nat → string → string → response.

Record failed_download := FailedDownload {
  fd_node_id : string;
  fd_error : string
}.

(** The mutable attributes of [EnhancedSubgraphMigration] used by the
    resolver ([failed_node_downloads] is created on first use; absent reads
    as empty); [remote_reads] is not an attribute of the class but the log
    of the [GET]s issued so far. *)
Record migration := Migration {
  node_cache : gmap string node;
  failed_node_downloads : list failed_download;
  remote_reads : list (string * string)
}.

Definition new_migration : migration :=
  {| node_cache := ∅; failed_node_downloads := []; remote_reads := [] |}.

(** [f"{workspace_id}_{node_id}"] *)
Definition cache_key (workspace_id node_id : string) : string :=
  workspace_id +:+ "_" +:+ node_id.

(** The result of a block that may raise. *)
Inductive outcome (A : Type) :=
| Returned (a : A)
| Raised (msg : string).
Arguments Returned {A} a.
Arguments Raised {A} msg.

Definition record_failure (st : migration) (node_id error : string) : migration :=
  {| node_cache := node_cache st;
     failed_node_downloads :=
       failed_node_downloads st ++ [FailedDownload node_id error];
     remote_reads := remote_reads st |}.

(** The [try] block of [_get_node_details], entered after a cache miss. *)
Definition get_node_details_try (rm : remote) (workspace_id node_id : string)
    (st : migration) : outcome (option node * migration) :=
  match rm (length (remote_reads st)) workspace_id node_id with
  | RequestRaised msg => Raised msg
  | HttpResponse status_code body =>
      if (status_code =? 200)%Z then
        match body with
        | inl msg => Raised msg
        | inr node_info =>
            Returned
              (Some node_info,
               {| node_cache :=
                    <[cache_key workspace_id node_id := node_info]> (node_cache st);
                  failed_node_downloads := failed_node_downloads st;
                  remote_reads := remote_reads st ++ [(workspace_id, node_id)] |})
        end
      else
        Returned
          (None,
           record_failure
             {| node_cache := node_cache st;
                failed_node_downloads := failed_node_downloads st;
                remote_reads := remote_reads st ++ [(workspace_id, node_id)] |}
             node_id ("HTTP " +:+ pretty status_code))
  end.

(** [_get_node_details(workspace_id, node_id)]: the cached node, else the
    [try] block with its [except Exception] handler. *)
Definition _get_node_details (rm : remote) (workspace_id node_id : string)
    (st : migration) : option node * migration :=
  match node_cache st !! cache_key workspace_id node_id with
  | Some node_info => (Some node_info, st)
  | None =>
      match get_node_details_try rm workspace_id node_id st with
      | Returned r => r
      | Raised msg =>
          (None,
           record_failure
             {| node_cache := node_cache st;
                failed_node_downloads := failed_node_downloads st;
                remote_reads := remote_reads st ++ [(workspace_id, node_id)] |}
             node_id msg)
      end
  end.

(** [if node_data:] on the value [_get_node_details] returned. *)
Definition fetched_truthy (node_data : option node) : bool :=
  match node_data with
  | Some n => node_truthy n
  | None => false
  end.

(** ** universal_subgraph_migration.py: dependency extraction *)

(** ['-' in node_id and len(node_id) > 30] *)
Definition looks_like_uuid (node_id : string) : bool :=
  str_contains "-" node_id && (30 <? String.length node_id)%nat.

(** A reference value that is truthy and looks like a UUID, as a string. *)
Definition uuid_dependency (v : scalar) : option string :=
  if scalar_truthy v && looks_like_uuid (py_str v) then Some (py_str v) else None.

(** The values of all [aliases] of all [sourceMapping] entries. *)
Definition alias_ids (md : metadata) : list scalar :=
  sm ← md_sourceMapping md; (map_to_list (sm_aliases sm)).*2.

(** [_extract_dependencies_from_node(node_data)] *)
Definition _extract_dependencies_from_node (node_data : option node)
    : gset string :=
  match node_data with
  | None => ∅
  | Some n =>
      if node_truthy n then
        let metadata := get_metadata n in
        list_to_set (omap uuid_dependency (column_ref_ids metadata))
        ∪ list_to_set (omap uuid_dependency (alias_ids metadata))
      else ∅
  end.

(** ** universal_subgraph_migration.py: classification *)

Definition non_migratable_types : list string :=
  ["source"; "source_table"; "source_mapping"; "stage"; "stage_table";
   "staging"; "raw"].

Definition stage_patterns : list string :=
  ["stage_"; "stg_"; "_stage"; "_stg"; "staging_"].

(** [config.get('materialized') == 'source' or config.get('is_source', False)] *)
Definition config_marks_source (config : option json) : bool :=
  match config with
  | Some (JDict d) =>
      match dict_get d "materialized" with
      | Some (JScalar (SStr "source")) => true
      | _ =>
          match dict_get d "is_source" with
          | Some v => json_truthy v
          | None => false
          end
      end
  | _ => false
  end.

(** [_is_api_migratable_node(node_data, node_id)] *)
Definition _is_api_migratable_node (node_data : option node) : bool :=
  match node_data with
  | None => false
  | Some n =>
      if negb (node_truthy n) then false
      else
        let node_type := str_lower (default "" (node_type n)) in
        if bool_decide (node_type ∈ non_migratable_types) then false
        else
          let node_name := str_lower (default "" (node_name n)) in
          if existsb (λ pattern, str_contains pattern node_name) stage_patterns
             && (str_contains "stage" node_type || str_contains "stg" node_type)
          then false
          else if config_marks_source (node_config n) then false
          else true
  end.

Record manual_node := ManualNode {
  mn_node_id : string;
  mn_node_name : string;
  mn_type : string
}.

(** The condition under which [_categorize_dependencies] files a node as
    manual: [node_type in ['source', 'stage'] and any(word in node_type for
    word in ['raw', 'src_'])]. *)
Definition categorized_manual (node_type : string) : bool :=
  bool_decide (node_type ∈ ["source"; "stage"])
  && existsb (λ word, str_contains word node_type) ["raw"; "src_"].

(** The test that skips an id: ['.' in id or not '-' in id or len(id) < 30]. *)
Definition skipped_reference (node_id : string) : bool :=
  str_contains "." node_id || negb (str_contains "-" node_id)
  || (String.length node_id <? 30)%nat.

(** The [for node_id in all_dependencies] loop of
    [_categorize_dependencies]. *)
Fixpoint categorize_loop (rm : remote) (workspace_id : string)
    (ids : list string) (st : migration) (api_migratable : gset string)
    (manual_required : list manual_node) (failed_analysis : list string)
    : gset string * list manual_node * list string * migration :=
  match ids with
  | [] => (api_migratable, manual_required, failed_analysis, st)
  | node_id :: rest =>
      if skipped_reference node_id then
        categorize_loop rm workspace_id rest st api_migratable manual_required
          failed_analysis
      else
        let '(node_data, st) := _get_node_details rm workspace_id node_id st in
        match node_data with
        | Some n =>
            if node_truthy n then
              let node_type := str_lower (default "" (node_type n)) in
              if categorized_manual node_type then
                categorize_loop rm workspace_id rest st api_migratable
                  (manual_required
                   ++ [ManualNode node_id (default node_id (node_name n)) node_type])
                  failed_analysis
              else
                categorize_loop rm workspace_id rest st
                  ({[node_id]} ∪ api_migratable) manual_required failed_analysis
            else
              categorize_loop rm workspace_id rest st api_migratable
                manual_required (failed_analysis ++ [node_id])
        | None =>
            categorize_loop rm workspace_id rest st api_migratable
              manual_required (failed_analysis ++ [node_id])
        end
  end.

Definition _categorize_dependencies (o : set_order) (rm : remote)
    (workspace_id : string) (all_dependencies : gset string) (st : migration)
    : gset string * list manual_node * list string * migration :=
  categorize_loop rm workspace_id (iter o all_dependencies) st ∅ [] [].

(** ** universal_subgraph_migration.py: discovery *)

(** The [for node_id in nodes_to_process] loop of a discovery round;
    [trace] lists the ids in the order they are processed. *)
Fixpoint process_nodes (rm : remote) (workspace_id : string)
    (nodes_to_process : list string) (st : migration)
    (new_dependencies processed_nodes : gset string) (trace : list string)
    : migration * gset string * gset string * list string :=
  match nodes_to_process with
  | [] => (st, new_dependencies, processed_nodes, trace)
  | node_id :: rest =>
      let '(node_data, st) := _get_node_details rm workspace_id node_id st in
      let new_dependencies :=
        if fetched_truthy node_data
        then new_dependencies ∪ _extract_dependencies_from_node node_data
        else new_dependencies in
      process_nodes rm workspace_id rest st new_dependencies
        ({[node_id]} ∪ processed_nodes) (trace ++ [node_id])
  end.

(** The state of the [while current_depth < max_depth] loop. *)
Record discovery := Discovery {
  disc_state : migration;
  all_discovered_nodes : gset string;
  processed_nodes : gset string;
  current_depth : nat;
  processed_trace : list string
}.

(** The discovery loop; [fuel] is [max_depth - current_depth]. *)
Fixpoint resolve_loop (fuel : nat) (o : set_order) (rm : remote)
    (workspace_id : string) (d : discovery) : discovery :=
  match fuel with
  | 0 => d
  | S fuel =>
      let nodes_to_process := all_discovered_nodes d ∖ processed_nodes d in
      if decide (nodes_to_process = ∅) then d
      else
        let '(st, new_dependencies, processed, trace) :=
          process_nodes rm workspace_id (iter o nodes_to_process) (disc_state d)
            ∅ (processed_nodes d) (processed_trace d) in
        if decide (new_dependencies = ∅) then
          Discovery st (all_discovered_nodes d) processed (current_depth d) trace
        else
          resolve_loop fuel o rm workspace_id
            (Discovery st (all_discovered_nodes d ∪ new_dependencies) processed
               (S (current_depth d)) trace)
  end.

Record resolution := Resolution {
  all_discovered : gset string;
  api_migratable : gset string;
  manual_required : list manual_node;
  failed_analysis : list string;
  search_depth_used : nat;
  resolution_trace : list string
}.

(** [_resolve_all_dependencies(workspace_id, initial_nodes, max_depth)];
    besides the returned dictionary, the depth reached and the order in
    which ids were processed. *)
Definition _resolve_all_dependencies (o : set_order) (rm : remote)
    (workspace_id : string) (initial_nodes : list scalar) (max_depth : nat)
    (st : migration) : resolution * migration :=
  let d := resolve_loop max_depth o rm workspace_id
             (Discovery st (list_to_set (py_str <$> initial_nodes)) ∅ 0 []) in
  let '(api, manual, failed, st) :=
    _categorize_dependencies o rm workspace_id (all_discovered_nodes d)
      (disc_state d) in
  (Resolution (all_discovered_nodes d) api manual failed (current_depth d)
     (processed_trace d), st).

(** ** Example data: a workspace snapshot *)

Definition id_source : string := "11111111-aaaa-4000-8000-000000000001".
Definition id_link_a : string := "22222222-bbbb-4000-8000-00000000000a".
Definition id_link_b : string := "22222222-bbbb-4000-8000-00000000000b".

(** A source table, and two links that refer to each other. *)
Definition snapshot_nodes : gmap string node :=
  {[ id_source := lineage_node "RAW_CUSTOMER" "Source" [];
     id_link_a := lineage_node "L_A" "Link" [id_link_b; id_source];
     id_link_b := lineage_node "L_B" "Link" [id_link_a] ]}.

(** The platform answering from the snapshot, 404 for any other id. *)
Definition snapshot_response (workspace_id node_id : string) : response :=
  match snapshot_nodes !! node_id with
  | Some n => HttpResponse 200 (inr n)
  | None => HttpResponse 404 (inl "Not Found")
  end.

Definition snapshot_remote : remote := λ _, snapshot_response.


(** ** Discovery under a fixed workspace snapshot *)

(** The node a fetch yields when the platform answers every read of a pair
    in the same way: the body of a status-200 answer. *)
Definition snapshot_node (snap : string → string → response)
    (workspace_id node_id : string) : option node :=
  match snap workspace_id node_id with
  | HttpResponse status_code (inr n) =>
      if (status_code =? 200)%Z then Some n else None
  | _ => None
  end.

(** The cache holds only what the snapshot answers. *)
Definition cache_ok (snap : string → string → response) (workspace_id : string)
    (st : migration) : Prop :=
  ∀ node_id n, node_cache st !! cache_key workspace_id node_id = Some n →
               snapshot_node snap workspace_id node_id = Some n.

(** The references discovery follows from one node of the snapshot. *)
Definition node_dependencies (snap : string → string → response)
    (workspace_id node_id : string) : gset string :=
  let node_data := snapshot_node snap workspace_id node_id in
  if fetched_truthy node_data then _extract_dependencies_from_node node_data
  else ∅.

Definition frontier_dependencies (snap : string → string → response)
    (workspace_id : string) (nodes : gset string) : gset string :=
  ⋃ (node_dependencies snap workspace_id <$> elements nodes).

(** The discovered set as a function of the snapshot alone. *)
Fixpoint discover (fuel : nat) (snap : string → string → response)
    (workspace_id : string) (discovered processed : gset string) : gset string :=
  match fuel with
  | 0 => discovered
  | S fuel =>
      let nodes_to_process := discovered ∖ processed in
      if decide (nodes_to_process = ∅) then discovered
      else
        let new_dependencies :=
          frontier_dependencies snap workspace_id nodes_to_process in
        if decide (new_dependencies = ∅) then discovered
        else discover fuel snap workspace_id (discovered ∪ new_dependencies)
               (nodes_to_process ∪ processed)
  end.

(** ** universal_node_creator.py: loading and filtering *)

(** An exported subgraph file as [load_and_consolidate_data] reads it. *)
Record export_file := ExportFile {
  ef_subgraph_name : option string;
  ef_node_details : gmap string node;
  ef_steps : list scalar
}.

Record subgraph_info := SubgraphInfo {
  sg_name : string;
  sg_source_file : string;
  sg_steps : list scalar;
  sg_node_count : nat
}.

(** The [for json_file in json_files] loop of [load_and_consolidate_data];
    a file that cannot be opened or decoded ([None]) is skipped.  A node id
    already present keeps its first data. *)
Fixpoint load_and_consolidate_loop (json_files : list (string * option export_file))
    (all_nodes : gmap string node) (all_subgraphs : list subgraph_info)
    : gmap string node * list subgraph_info :=
  match json_files with
  | [] => (all_nodes, all_subgraphs)
  | (json_file, None) :: rest =>
      load_and_consolidate_loop rest all_nodes all_subgraphs
  | (json_file, Some data) :: rest =>
      load_and_consolidate_loop rest (all_nodes ∪ ef_node_details data)
        (all_subgraphs
         ++ [SubgraphInfo (default "Unknown" (ef_subgraph_name data)) json_file
               (ef_steps data) (size (ef_node_details data))])
  end.

Definition load_and_consolidate_data
    (json_files : list (string * option export_file))
    : gmap string node * list subgraph_info :=
  load_and_consolidate_loop json_files ∅ [].

(** The tables of [filter_nodes_by_type]. *)
Definition node_type_mapping : gmap string string :=
  list_to_map
    [("30", "Satellite"); ("31", "Satellite"); ("32", "Hub"); ("33", "Link");
     ("34", "Dimension"); ("35", "Fact"); ("36", "Stage"); ("37", "View");
     ("50", "Hub_Advanced"); ("51", "Link_Advanced"); ("205", "Source");
     ("206", "BaseNodes"); ("BaseNodes:::205", "BaseNodes");
     ("Source", "Source"); ("Stage", "Stage"); ("View", "View")].

Definition allowed_types : list string :=
  ["Satellite"; "Hub"; "Link"; "Hub_Advanced"; "Link_Advanced"; "View";
   "BaseNodes"; "Dimension"; "Fact"].

(** [raw_node_type] and [normalized_type] of the filter loop. *)
Definition raw_node_type (node_data : node) : string :=
  default "Unknown" (node_nodeType node_data).

Definition normalized_type (node_data : node) : string :=
  default (raw_node_type node_data) (node_type_mapping !! raw_node_type node_data).

(** [filter_nodes_by_type(all_nodes)]: the included and the excluded
    nodes. *)
Definition filter_nodes_by_type (all_nodes : gmap string node)
    : gmap string node * gmap string node :=
  (filter (λ kv, normalized_type kv.2 ∈ allowed_types) all_nodes,
   filter (λ kv, normalized_type kv.2 ∉ allowed_types) all_nodes).

(** ** universal_subgraph_migration.py: exporting a subgraph *)

(** The node-detail loop of [get_subgraph_details_and_nodes]:
    [for node_id in sorted(api_migratable)], keeping the truthy results. *)
Fixpoint collect_node_details (rm : remote) (workspace_id : string)
    (ids : list string) (st : migration) (node_details : gmap string node)
    : gmap string node * migration :=
  match ids with
  | [] => (node_details, st)
  | node_id :: rest =>
      let '(node_info, st) := _get_node_details rm workspace_id node_id st in
      collect_node_details rm workspace_id rest st
        (match node_info with
         | Some n => if node_truthy n then <[node_id := n]> node_details
                     else node_details
         | None => node_details
         end)
  end.

(** The part of [get_subgraph_details_and_nodes] that follows the read of
    the subgraph: resolution with the default depth bound, then the node
    details of the API-migratable ids ([sorted] is one enumeration of the
    set; [o] stands for it). *)
Definition resolve_and_collect (o : set_order) (rm : remote)
    (workspace_id : string) (initial_node_ids : list scalar) (st : migration)
    : resolution * gmap string node * migration :=
  let '(res, st) :=
    _resolve_all_dependencies o rm workspace_id initial_node_ids 10 st in
  let '(node_details, st) :=
    collect_node_details rm workspace_id (iter o (api_migratable res)) st ∅ in
  (res, node_details, st).

(** The state only grows: cached nodes stay as they are, failure records
    and remote reads are only appended. *)
Definition migration_le (st st' : migration) : Prop :=
  node_cache st ⊆ node_cache st'
  ∧ failed_node_downloads st `prefix_of` failed_node_downloads st'
  ∧ remote_reads st `prefix_of` remote_reads st'.

(** ** Further observations on the scheduler *)

(** Every creation request yields a node id: a dry run, or a platform that
    answers each [POST] with a 2xx body carrying a truthy id. *)
Definition always_creates (dry_run : bool) (w : world) : Prop :=
  dry_run = true
  ∨ ∀ k n p, ∃ new_node_id hash_put cleaned_put,
      w k n p = PostOk new_node_id hash_put cleaned_put
      ∧ scalar_truthy new_node_id = true.

(** A call that was made with every dependency of its node already in
    the mapping, hence with one predecessor per dependency. *)
Definition complete_call (dependencies : gmap string (list string))
    (c : api_call) : Prop :=
  (∀ d, d ∈ deps_of dependencies (call_node_id c) → d ∈ dom (call_mapping c))
  ∧ length (call_predecessor_ids c)
    = length (deps_of dependencies (call_node_id c)).

(** The hub before everything else. *)
Definition scenario_rank (n : string) : nat :=
  if String.eqb n "H_CUSTOMER" then 0 else 1.

(** ** universal_metadata_updater.py: updating the created nodes *)

(** What the platform answers to the [PUT] of a node: a status code, a
    timeout of [requests], or any other exception. *)
Inductive update_answer :=
| UpdateStatus (status_code : Z)
| UpdateTimeout
| UpdateRaised (msg : string).

(** The platform as seen by the updater: the answer to the k-th [PUT], for
    a node id and a metadata payload. *)
Definition update_world := nat → scalar → metadata → update_answer.

(** The [status_code] field of an error record. *)
Inductive error_status :=
| StatusCode (status_code : Z)
| StatusTimeout
| StatusException
| StatusMissingData.

Record update_success := UpdateSuccess {
  us_node_id : scalar;
  us_name : string;
  us_column_count : nat;
  us_source_mapping_count : nat
}.

Record update_error := UpdateError {
  ue_node_id : scalar;
  ue_name : string;
  ue_status : error_status
}.

Record failed_update := FailedUpdate {
  fu_node_id : scalar;
  fu_name : string;
  fu_status : error_status;
  fu_has_columns : bool;
  fu_has_source_mapping : bool
}.

(** An entry of [creation_results['created_nodes']]. *)
Record created_entry := CreatedEntry {
  ce_original_id : string;
  ce_new_id : scalar;
  ce_name : string
}.

(** The mutable attributes of [UniversalNodeMetadataUpdater]; [put_log] is
    not an attribute of the class but the log of the [PUT]s issued, each
    with the node id and the metadata sent. *)
Record updater := Updater {
  update_successes : list update_success;
  update_errors : list update_error;
  failed_updates : list failed_update;
  put_log : list (scalar * metadata)
}.

Definition new_updater : updater :=
  {| update_successes := []; update_errors := []; failed_updates := [];
     put_log := [] |}.

(** Both failure lists get a record. *)
Definition record_update_failure (st : updater) (node_id : scalar)
    (name : string) (status : error_status) (has_columns has_mapping : bool)
    : updater :=
  {| update_successes := update_successes st;
     update_errors := update_errors st ++ [UpdateError node_id name status];
     failed_updates :=
       failed_updates st
       ++ [FailedUpdate node_id name status has_columns has_mapping];
     put_log := put_log st |}.

Definition has_items {A} (l : list A) : bool :=
  match l with [] => false | _ :: _ => true end.

(** [update_node_metadata(workspace_id, new_node_id, original_node_data,
    node_id_mapping, dry_run)]: the returned boolean and the new state. *)
Definition update_node_metadata (uw : update_world) (new_node_id : scalar)
    (original_node_data : node) (node_id_mapping : idmap) (dry_run : bool)
    (st : updater) : bool * updater :=
  let node_name :=
    default ("Node_" +:+ py_str new_node_id) (node_name original_node_data) in
  if dry_run then (true, st)
  else
    match build_proper_metadata original_node_data node_id_mapping with
    | None => (true, st)
    | Some proper_metadata =>
        let has_columns := has_items (md_columns proper_metadata) in
        let has_mapping := has_items (md_sourceMapping proper_metadata) in
        let answer := uw (length (put_log st)) new_node_id proper_metadata in
        let st :=
          {| update_successes := update_successes st;
             update_errors := update_errors st;
             failed_updates := failed_updates st;
             put_log := put_log st ++ [(new_node_id, proper_metadata)] |} in
        match answer with
        | UpdateStatus status_code =>
            if bool_decide (status_code ∈ [200; 201]%Z) then
              (true,
               {| update_successes :=
                    update_successes st
                    ++ [UpdateSuccess new_node_id node_name
                          (length (md_columns proper_metadata))
                          (length (md_sourceMapping proper_metadata))];
                  update_errors := update_errors st;
                  failed_updates := failed_updates st;
                  put_log := put_log st |})
            else
              (false,
               record_update_failure st new_node_id node_name
                 (StatusCode status_code) has_columns has_mapping)
        | UpdateTimeout =>
            (false,
             record_update_failure st new_node_id node_name StatusTimeout
               has_columns has_mapping)
        | UpdateRaised _ =>
            (false,
             record_update_failure st new_node_id node_name StatusException
               has_columns has_mapping)
        end
    end.

(** The [for created_node in created_nodes] loop of [update_all_nodes]. *)
Fixpoint update_all_loop (uw : update_world) (created : list created_entry)
    (original_nodes : gmap string node) (node_id_mapping : idmap)
    (dry_run : bool) (st : updater) (updated_count : nat) : nat * updater :=
  match created with
  | [] => (updated_count, st)
  | created_node :: rest =>
      match original_nodes !! ce_original_id created_node with
      | Some original_node_data =>
          if node_truthy original_node_data then
            let '(success, st) :=
              update_node_metadata uw (ce_new_id created_node)
                original_node_data node_id_mapping dry_run st in
            update_all_loop uw rest original_nodes node_id_mapping dry_run st
              (if success then S updated_count else updated_count)
          else
            update_all_loop uw rest original_nodes node_id_mapping dry_run
              (record_update_failure st (ce_new_id created_node)
                 (ce_name created_node) StatusMissingData false false)
              updated_count
      | None =>
          update_all_loop uw rest original_nodes node_id_mapping dry_run
            (record_update_failure st (ce_new_id created_node)
               (ce_name created_node) StatusMissingData false false)
            updated_count
      end
  end.

(** [update_all_nodes(workspace_id, creation_results, original_nodes,
    dry_run)]: [updated_count] and the new state. *)
Definition update_all_nodes (uw : update_world) (created : list created_entry)
    (original_nodes : gmap string node) (node_id_mapping : idmap)
    (dry_run : bool) (st : updater) : nat * updater :=
  update_all_loop uw created original_nodes node_id_mapping dry_run st 0.

(** Whether an entry's original data is found (present and not empty). *)
Definition original_found (original_nodes : gmap string node)
    (e : created_entry) : bool :=
  match original_nodes !! ce_original_id e with
  | Some n => node_truthy n
  | None => false
  end.

(* ===================================================================== *)
(** * Part II: theorems                                                   *)
(* ===================================================================== *)

(** ** Subgraph composer *)

Section merge_steps_facts.
Implicit Types (ids l merged : list string) (seen : gset string).

Lemma merge_steps_loop_fresh ids seen merged :
  merge_steps_loop ids seen merged = merged ++ fresh_ids ids seen.
Proof.
  revert seen merged; induction ids as [|nid rest IH]; intros seen merged; simpl.
  - by rewrite app_nil_r.
  - case_decide; [apply IH|]. rewrite IH, <-app_assoc. done.
Qed.

Lemma elem_of_fresh_ids ids seen x :
  x ∈ fresh_ids ids seen ↔ x ∈ ids ∧ x ∉ seen.
Proof.
  revert seen; induction ids as [|nid rest IH]; intros seen; simpl.
  - set_solver.
  - case_decide.
    + rewrite IH. set_solver.
    + rewrite elem_of_cons, IH. destruct (decide (x = nid)); set_solver.
Qed.

Lemma NoDup_fresh_ids ids seen : NoDup (fresh_ids ids seen).
Proof.
  revert seen; induction ids as [|nid rest IH]; intros seen; simpl.
  - constructor.
  - case_decide; [apply IH|]. constructor; [|apply IH].
    rewrite elem_of_fresh_ids. set_solver.
Qed.

Lemma fresh_ids_all_seen ids seen :
  (∀ x, x ∈ ids → x ∈ seen) → fresh_ids ids seen = [].
Proof.
  induction ids as [|nid rest IH]; intros Hall; simpl; [done|].
  rewrite decide_True by (apply Hall; left).
  apply IH. intros x Hx. apply Hall. by right.
Qed.

Lemma fresh_ids_app l ids seen :
  fresh_ids (l ++ ids) seen
  = fresh_ids l seen ++ fresh_ids ids (list_to_set (fresh_ids l seen) ∪ seen).
Proof.
  revert seen; induction l as [|nid rest IH]; intros seen; simpl.
  - f_equal. set_solver.
  - case_decide; [apply IH|]. simpl. rewrite IH. do 3 f_equal.
    set_solver.
Qed.

Lemma fresh_ids_NoDup_id l : NoDup l → fresh_ids l ∅ = l.
Proof.
  assert (∀ seen, NoDup l → (∀ x, x ∈ l → x ∉ seen) → fresh_ids l seen = l)
    as Hgen.
  { induction l as [|nid rest IH]; intros seen Hnd Hdisj; simpl; [done|].
    inversion Hnd as [|? ? Hnotin Hnd']; subst.
    rewrite decide_False by (apply Hdisj; left).
    f_equal. apply IH; [done|]. intros x Hx.
    specialize (Hdisj x (list_elem_of_further _ _ _ Hx)). set_solver. }
  intros Hnd. apply Hgen; [done|]. set_solver.
Qed.

(** First-seen order: an id placed earlier in the output has an
    occurrence in the input that precedes every occurrence of any id
    placed later. *)
Lemma fresh_ids_order ids seen i j x y :
  fresh_ids ids seen !! i = Some x →
  fresh_ids ids seen !! j = Some y →
  (i < j)%nat →
  ∃ p, ids !! p = Some x ∧ ∀ q, (q ≤ p)%nat → ids !! q ≠ Some y.
Proof.
  revert seen i j; induction ids as [|nid rest IH]; intros seen i j; simpl.
  - intros Hx; by rewrite lookup_nil in Hx.
  - case_decide as Hseen.
    + intros Hx Hy Hij. destruct (IH _ _ _ Hx Hy Hij) as (p & Hp & Hq).
      exists (S p). split; [done|]. intros [|q] Hle; simpl.
      * intros [= ->]. apply list_elem_of_lookup_2, elem_of_fresh_ids in Hy.
        tauto.
      * apply Hq. lia.
    + intros Hx Hy Hij. destruct j as [|j]; [lia|]. simpl in Hy.
      assert (nid ≠ y) as Hne.
      { intros ->. apply list_elem_of_lookup_2, elem_of_fresh_ids in Hy.
        set_solver. }
      destruct i as [|i]; simpl in Hx.
      * injection Hx as ->. exists 0%nat. split; [done|].
        intros q Hq. assert (q = 0%nat) as -> by lia. simpl. congruence.
      * destruct (IH _ _ _ Hx Hy ltac:(lia)) as (p & Hp & Hq).
        exists (S p). split; [done|]. intros [|q] Hle; simpl;
          [congruence | apply Hq; lia].
Qed.
End merge_steps_facts.

Lemma normalize_ids_strs (l : list string) :
  _normalize_ids (Some (SStr <$> l)) = l.
Proof.
  unfold _normalize_ids; simpl.
  induction l as [|x l IH]; simpl; [done|]. by f_equal.
Qed.

(** C5. Composer idempotence: merging the mapped members into the output
    of a first merge (taken as the live membership) returns that output
    unchanged; the merged list has no duplicates, holds exactly the ids of
    both inputs, and lists them in first-seen order. *)
Theorem merge_steps_idempotent (existing_steps mapped_steps : option (list scalar)) :
  let ids := _normalize_ids existing_steps ++ _normalize_ids mapped_steps in
  let merged := merge_steps existing_steps mapped_steps in
  merge_steps (Some (SStr <$> merged)) mapped_steps = merged
  ∧ NoDup merged
  ∧ (∀ x, x ∈ merged ↔ x ∈ ids)
  ∧ (∀ i j x y, merged !! i = Some x → merged !! j = Some y → (i < j)%nat →
       ∃ p, ids !! p = Some x ∧ ∀ q, (q ≤ p)%nat → ids !! q ≠ Some y).
Proof.
  intros ids merged.
  assert (merged = fresh_ids ids ∅) as Hm.
  { unfold merged, merge_steps. by rewrite merge_steps_loop_fresh. }
  assert (∀ x, x ∈ merged ↔ x ∈ ids) as Hel.
  { intros x. rewrite Hm, elem_of_fresh_ids. set_solver. }
  assert (NoDup merged) as Hnd by (rewrite Hm; apply NoDup_fresh_ids).
  split; [|split; [done|split; [done|]]].
  - unfold merge_steps. rewrite merge_steps_loop_fresh, normalize_ids_strs.
    simpl. rewrite fresh_ids_app, fresh_ids_NoDup_id by done.
    rewrite fresh_ids_all_seen; [by rewrite app_nil_r|].
    intros x Hx. apply elem_of_union_l, elem_of_list_to_set, Hel.
    unfold ids. set_solver.
  - intros i j x y. rewrite Hm. apply fresh_ids_order.
Qed.

(** *** Mapping the original members *)

Lemma omap_cons_eq {A B} (f : A → option B) (x : A) (l : list A) :
  omap f (x :: l)
  = match f x with Some y => y :: omap f l | None => omap f l end.
Proof. done. Qed.

Lemma map_and_preserve_loop_spec original_nodes (m : idmap) r mapped unmapped :
  map_and_preserve_loop original_nodes m r mapped unmapped
  = (mapped ++ omap (member_target m r) (py_str <$> original_nodes),
     unmapped ++ filter (λ k, member_target m r k = None)
                   (py_str <$> original_nodes)).
Proof.
  revert mapped unmapped.
  induction original_nodes as [|node_id rest IH]; intros mapped unmapped.
  - simpl. by rewrite !app_nil_r.
  - rewrite fmap_cons, filter_cons, omap_cons_eq.
    cbn [map_and_preserve_loop].
    destruct (m !! py_str node_id) as [v|] eqn:Hm.
    + assert (member_target m r (py_str node_id) = Some (py_str v)) as ->
        by (unfold member_target; by rewrite Hm).
      rewrite decide_False by done. by rewrite IH, <-app_assoc.
    + destruct (node_references_get r (py_str node_id)) as [t|] eqn:Hr.
      * assert (member_target m r (py_str node_id) = Some (py_str t)) as ->
          by (unfold member_target; by rewrite Hm, Hr).
        rewrite decide_False by done. by rewrite IH, <-app_assoc.
      * assert (member_target m r (py_str node_id) = None) as ->
          by (unfold member_target; by rewrite Hm, Hr).
        rewrite decide_True by done. by rewrite IH, <-app_assoc.
Qed.

Lemma create_subgraphs_steps_loop_spec original_steps (m : idmap) mapped n :
  create_subgraphs_steps_loop original_steps m mapped n
  = (mapped ++ omap (λ k, m !! k) (py_str <$> original_steps),
     (n + length (filter (λ k, m !! k = None) (py_str <$> original_steps)))%nat).
Proof.
  revert mapped n.
  induction original_steps as [|step rest IH]; intros mapped n.
  - simpl. by rewrite app_nil_r, Nat.add_0_r.
  - rewrite fmap_cons, filter_cons, omap_cons_eq.
    cbn [create_subgraphs_steps_loop].
    destruct (m !! py_str step) as [v|] eqn:Hm.
    + rewrite decide_False by done. by rewrite IH, <-app_assoc.
    + rewrite decide_True by done. rewrite IH. simpl. f_equal. lia.
Qed.

Lemma length_omap_filter_None {A B} (f : A → option B) (l : list A) :
  (length (omap f l) + length (filter (λ k, f k = None) l))%nat = length l.
Proof.
  induction l as [|x l IH]; [done|]. rewrite filter_cons, omap_cons_eq.
  destruct (f x) eqn:Hf.
  - rewrite decide_False by done. simpl. lia.
  - rewrite decide_True by done. simpl. lia.
Qed.

(** C6 (as amended). [map_and_preserve_all_nodes] replaces a member by its
    identifier-mapping value, else by its node-reference value; a member
    with neither entry is kept as is, after all replaced members, and
    counted as unmapped; no member is lost. The node creator's
    [create_subgraphs_from_original] keeps only the mapped members and
    counts the others. *)
Theorem map_and_preserve_all_nodes_spec (original_nodes : list scalar)
    (m : idmap) (r : option (gmap string scalar)) :
  let keys := py_str <$> original_nodes in
  let unmapped := filter (λ k, member_target m r k = None) keys in
  let result := map_and_preserve_all_nodes original_nodes m r in
  result = (omap (member_target m r) keys ++ unmapped, length unmapped)
  ∧ length result.1 = length original_nodes
  ∧ (∀ id v, id ∈ original_nodes → m !! py_str id = Some v →
       py_str v ∈ result.1)
  ∧ (∀ id t, id ∈ original_nodes → m !! py_str id = None →
       node_references_get r (py_str id) = Some t → py_str t ∈ result.1)
  ∧ (∀ id, id ∈ original_nodes → m !! py_str id = None →
       node_references_get r (py_str id) = None → py_str id ∈ result.1)
  ∧ create_subgraphs_mapped_steps original_nodes m
    = (omap (λ k, m !! k) keys, length (filter (λ k, m !! k = None) keys)).
Proof.
  intros keys unmapped result.
  assert (result = (omap (member_target m r) keys ++ unmapped, length unmapped))
    as Hres.
  { unfold result, map_and_preserve_all_nodes.
    by rewrite map_and_preserve_loop_spec. }
  rewrite Hres; simpl.
  split; [done|]. split.
  { rewrite length_app. unfold unmapped, keys.
    by rewrite length_omap_filter_None, length_fmap. }
  split; [|split; [|split]].
  - intros id v Hid Hm. apply elem_of_app; left.
    apply list_elem_of_omap. exists (py_str id). split.
    + unfold keys. by apply list_elem_of_fmap_2.
    + unfold member_target. by rewrite Hm.
  - intros id t Hid Hm Hr. apply elem_of_app; left.
    apply list_elem_of_omap. exists (py_str id). split.
    + unfold keys. by apply list_elem_of_fmap_2.
    + unfold member_target. by rewrite Hm, Hr.
  - intros id Hid Hm Hr. apply elem_of_app; right.
    apply list_elem_of_filter. split.
    + unfold member_target. by rewrite Hm, Hr.
    + unfold keys. by apply list_elem_of_fmap_2.
  - unfold create_subgraphs_mapped_steps.
    by rewrite create_subgraphs_steps_loop_spec.
Qed.

(** C6 as stated fails: member ["b"] has no identifier-mapping entry, yet
    [map_and_preserve_all_nodes] replaces it by its node-reference value
    and counts no unmapped member, and the node creator leaves it out. *)
Lemma composer_passthrough_counterexample :
  let m : idmap := {[ "a" := SStr "new_001" ]} in
  let r : option (gmap string scalar) := Some {[ "b" := SStr "stage_9" ]} in
  let members := [SStr "a"; SStr "b"] in
  m !! "b" = None
  ∧ map_and_preserve_all_nodes members m r = (["new_001"; "stage_9"], 0%nat)
  ∧ ("b" ∉ (map_and_preserve_all_nodes members m r).1)
  ∧ create_subgraphs_mapped_steps members m = ([SStr "new_001"], 1%nat).
Proof.
  assert (map_and_preserve_all_nodes [SStr "a"; SStr "b"]
            {[ "a" := SStr "new_001" ]} (Some {[ "b" := SStr "stage_9" ]})
          = (["new_001"; "stage_9"], 0%nat)) as Heq by by vm_compute.
  simpl. rewrite Heq. split; [by vm_compute|]. split; [done|].
  split; [|by vm_compute].
  simpl. rewrite !elem_of_cons, elem_of_nil. intros [?|[?|[]]]; discriminate.
Qed.

(** ** Reference remapper *)

Lemma proper_col_ref_kept (m : idmap) (r : col_ref) :
  scalar_truthy (ref_nodeID r) = true → json_truthy (ref_columnID r) = true →
  proper_col_ref m r
  = Some (ColRef (map_node_id m (ref_nodeID r)) (ref_columnID r)).
Proof. intros H1 H2. unfold proper_col_ref. by rewrite H1, H2. Qed.

Lemma proper_col_ref_dropped (m : idmap) (r : col_ref) :
  scalar_truthy (ref_nodeID r) && json_truthy (ref_columnID r) = false →
  proper_col_ref m r = None.
Proof. intros H. unfold proper_col_ref. by rewrite H. Qed.







(** The scenario of the specification: the satellite's reference to the
    created hub is rewritten, its reference to the stage node is left as
    it is, and so are the alias values. *)
Example build_proper_metadata_scenario :
  let m : idmap := {[ "H_CUSTOMER" := SStr "new_001" ]} in
  let refs := [ColRef (SStr "H_CUSTOMER") (JScalar (SStr "c1"));
               ColRef (SStr "STG_CUSTOMER") (JScalar (SStr "c7"))] in
  let col := Column (Some (JScalar (SStr "CUSTOMER_HK")))
               (Some (JScalar (SStr "VARCHAR(32)"))) (Some (JScalar (SBool false)))
               None None None None
               [Source (Some (JScalar (SStr "MD5(ID)"))) refs] None in
  let sm := SourceMap {[ "H" := SStr "H_CUSTOMER"; "S" := SStr "STG_CUSTOMER" ]}
              None None None None None in
  let n := Node (Some "S_CUSTOMER_CURRENT") None (Some "Satellite") None
             (Some (Metadata [col] [sm] None None None)) [] in
  ∃ out c s a, build_proper_metadata n m = Some out
  ∧ md_columns out = [c] ∧ col_sources c = [s]
  ∧ src_columnReferences s
    = [ColRef (SStr "new_001") (JScalar (SStr "c1"));
       ColRef (SStr "STG_CUSTOMER") (JScalar (SStr "c7"))]
  ∧ md_sourceMapping out = [a]
  ∧ sm_aliases a !! "H" = Some (SStr "new_001")
  ∧ sm_aliases a !! "S" = Some (SStr "STG_CUSTOMER").
Proof.
  simpl. do 4 eexists. split; [reflexivity|]. simpl.
  repeat split; by vm_compute.
Qed.


(** ** Set iteration *)

Lemma elem_of_iter (o : set_order) (s : gset string) (x : string) :
  x ∈ iter o s ↔ x ∈ s.
Proof. by rewrite (iter_perm o s), elem_of_elements. Qed.

Lemma NoDup_iter (o : set_order) (s : gset string) : NoDup (iter o s).
Proof. rewrite (iter_perm o s). apply NoDup_elements. Qed.

Lemma iter_empty (o : set_order) : iter o ∅ = [].
Proof.
  apply Permutation_nil_r. by rewrite (iter_perm o ∅), elements_empty.
Qed.

Lemma iter_nil_inv (o : set_order) (s : gset string) : iter o s = [] → s = ∅.
Proof.
  intros H. apply set_eq. intros x. rewrite <-(elem_of_iter o), H. set_solver.
Qed.

Lemma filter_nil_intro {A} (P : A → Prop) `{∀ x, Decision (P x)} (l : list A) :
  (∀ x, x ∈ l → ¬ P x) → filter P l = [].
Proof.
  induction l as [|x l IH]; intros Hall; [done|].
  rewrite filter_cons_False by (apply Hall; left).
  apply IH. intros y Hy. apply Hall. by right.
Qed.

(** ** Dependency analysis *)

Lemma analyze_dependencies_lookup (o : set_order) (all_nodes : gmap string node)
    (node_id : string) :
  analyze_dependencies o all_nodes !! node_id
  = (λ node_data, filter (λ pid, pid ∈ dom all_nodes)
                    (iter o (predecessors node_id node_data)))
      <$> all_nodes !! node_id.
Proof.
  unfold analyze_dependencies. rewrite map_lookup_imap.
  by destruct (all_nodes !! node_id).
Qed.

Lemma elem_of_predecessors (node_id : string) (node_data : node) (d : string) :
  d ∈ predecessors node_id node_data
  ↔ SStr d ∈ column_ref_ids (get_metadata node_data) ∧ d ≠ "" ∧ d ≠ node_id.
Proof.
  unfold predecessors. rewrite elem_of_list_to_set, list_elem_of_omap. split.
  - intros (id & Hid & Hc). unfold predecessor_candidate in Hc.
    destruct id as [| | | |s]; try done.
    case_bool_decide as Hs; [|done]. by injection Hc as <-.
  - intros (Hd & Hne). exists (SStr d). split; [done|].
    unfold predecessor_candidate. by rewrite bool_decide_true.
Qed.

Lemma select_round_nodes_ready (o : set_order)
    (dependencies : gmap string (list string)) (mapping : idmap)
    (remaining : gset string) :
  find_ready_nodes o dependencies mapping remaining ≠ [] →
  select_round_nodes o dependencies mapping remaining
  = find_ready_nodes o dependencies mapping remaining.
Proof.
  unfold select_round_nodes.
  by destruct (find_ready_nodes o dependencies mapping remaining).
Qed.

(** C10. The dependency list of a node never contains the node itself,
    contains only keys of the analyzed node set, and has no repetition.
    So a node whose lineage refers only to itself or to nodes outside the
    set has no dependency: whatever the mapping, it is among the ready
    nodes of any round in which it remains (the first one included), and
    that round does not take the forced-progress branch. *)
Theorem analyze_dependencies_invariant (o : set_order)
    (all_nodes : gmap string node) (node_id : string) (node_data : node) :
  all_nodes !! node_id = Some node_data →
  ∃ deps, analyze_dependencies o all_nodes !! node_id = Some deps
  ∧ (node_id ∉ deps)
  ∧ (∀ d, d ∈ deps → d ∈ dom all_nodes)
  ∧ NoDup deps
  ∧ ((∀ id, id ∈ column_ref_ids (get_metadata node_data) →
        id = SStr node_id ∨ ∀ s, id = SStr s → s ∉ dom all_nodes) →
     deps = []
     ∧ ∀ (mapping : idmap) (remaining : gset string), node_id ∈ remaining →
         let dependencies := analyze_dependencies o all_nodes in
         node_id ∈ find_ready_nodes o dependencies mapping remaining
         ∧ select_round_nodes o dependencies mapping remaining
           = find_ready_nodes o dependencies mapping remaining).
Proof.
  intros Hnode. eexists. split.
  { by rewrite analyze_dependencies_lookup, Hnode. }
  split; [|split; [|split]].
  - rewrite list_elem_of_filter, elem_of_iter, elem_of_predecessors. tauto.
  - intros d. rewrite list_elem_of_filter. tauto.
  - apply NoDup_filter, NoDup_iter.
  - intros Honly.
    assert (filter (λ pid, pid ∈ dom all_nodes)
              (iter o (predecessors node_id node_data)) = []) as Hnil.
    { apply filter_nil_intro. intros d.
      rewrite elem_of_iter, elem_of_predecessors.
      intros (Hd & _ & Hne) Hdom.
      destruct (Honly _ Hd) as [[= ->]|Hout]; [done|]. by apply (Hout d). }
    split; [done|]. intros mapping remaining Hrem dependencies.
    assert (node_id ∈ find_ready_nodes o dependencies mapping remaining) as Hready.
    { apply list_elem_of_filter. split; [|by apply elem_of_iter].
      unfold unsatisfied_deps, deps_of, dependencies.
      by rewrite analyze_dependencies_lookup, Hnode; simpl; rewrite Hnil. }
    split; [done|]. apply select_round_nodes_ready.
    intros Hempty. rewrite Hempty in Hready. by apply elem_of_nil in Hready.
Qed.

(** ** Node creation *)

Lemma create_node_via_api_effect (w : world) (node_id : string)
    (node_data : node) (preds : list scalar) (dry_run : bool) (st : creator) :
  let outcome :=
    if dry_run then None
    else Some (w (length (api_calls st)) node_id preds) in
  let r := create_node_via_api w node_id node_data preds dry_run st in
  r.1 = (call_effect (test_hash_keys st) outcome).2
  ∧ api_calls r.2
    = api_calls st ++ [ApiCall node_id preds (node_id_mapping st) outcome r.1]
  ∧ node_id_mapping r.2
    = match call_new_id (node_id_mapping st) outcome with
      | Some v => <[node_id := v]> (node_id_mapping st)
      | None => node_id_mapping st
      end
  ∧ (is_Some (call_new_id (node_id_mapping st) outcome)
     ↔ (call_effect (test_hash_keys st) outcome).1.1 = true)
  ∧ err_ids r.2
    = err_ids st
      ++ (if (call_effect (test_hash_keys st) outcome).1.2 then [node_id] else [])
  ∧ test_hash_keys r.2 = test_hash_keys st.
Proof.
  destruct st as [m cn ce hs hf th calls].
  unfold create_node_via_api, err_ids; simpl. destruct dry_run; simpl.
  { rewrite app_nil_r. repeat split; eauto. }
  destruct (w (length calls) node_id preds) as [status|msg|new_id hp cp]; simpl.
  - rewrite fmap_app. repeat split; try done; by intros [? ?].
  - rewrite fmap_app. repeat split; try done; by intros [? ?].
  - destruct (scalar_truthy new_id) eqn:Hid; simpl.
    2:{ rewrite app_nil_r. repeat split; try done; by intros [? ?]. }
    unfold configure_created_node; simpl.
    destruct th, hp, cp; simpl; rewrite ?fmap_app, ?app_nil_r;
      repeat split; eauto.
Qed.

Lemma create_node_via_api_dom (w : world) (node_id : string)
    (node_data : node) (preds : list scalar) (dry_run : bool) (st : creator) :
  dom (node_id_mapping st)
  ⊆ dom (node_id_mapping (create_node_via_api w node_id node_data preds dry_run st).2).
Proof.
  destruct (create_node_via_api_effect w node_id node_data preds dry_run st)
    as (_ & _ & -> & _).
  destruct (call_new_id _ _); [|done]. rewrite dom_insert_L. set_solver.
Qed.

(** *** The creation loop of one round *)

Lemma create_ready_nodes_calls (w : world) (all_nodes : gmap string node)
    (dependencies : gmap string (list string)) (dry_run : bool)
    (ready : list string) (st : creator) (remaining : gset string) (rs : nat) :
  (∀ n, n ∈ ready → n ∈ dom all_nodes) →
  let r := create_ready_nodes w all_nodes dependencies dry_run ready st
             remaining rs in
  r.1.2 = remaining ∖ list_to_set ready
  ∧ dom (node_id_mapping st) ⊆ dom (node_id_mapping r.1.1)
  ∧ ∃ calls, api_calls r.1.1 = api_calls st ++ calls
    ∧ call_node_id <$> calls = ready
    ∧ r.2 = (rs + length (filter (λ c, call_result c = true) calls))%nat
    ∧ ∀ c, c ∈ calls →
        call_predecessor_ids c
        = mapped_deps (call_mapping c) (deps_of dependencies (call_node_id c))
        ∧ dom (node_id_mapping st) ⊆ dom (call_mapping c).
Proof.
  revert st remaining rs.
  induction ready as [|n rest IH]; intros st remaining rs Hdom r.
  { subst r; simpl. split; [set_solver|]. split; [done|]. exists [].
    rewrite app_nil_r. split; [done|]. split; [done|].
    split; [simpl; lia|]. intros c Hc. by apply elem_of_nil in Hc. }
  assert (is_Some (all_nodes !! n)) as [nd Hnd].
  { apply elem_of_dom, Hdom. left. }
  subst r. cbn [create_ready_nodes]. rewrite Hnd.
  pose proof (create_node_via_api_effect w n nd
    (mapped_deps (node_id_mapping st) (deps_of dependencies n)) dry_run st)
    as (Hres & Hcalls & _).
  pose proof (create_node_via_api_dom w n nd
    (mapped_deps (node_id_mapping st) (deps_of dependencies n)) dry_run st)
    as Hsub.
  destruct (create_node_via_api w n nd _ dry_run st) as [result st1].
  simpl in Hres, Hcalls, Hsub.
  destruct (IH st1 (remaining ∖ {[n]}) (if result then S rs else rs))
    as (Hrem & Hsub' & calls & Hc1 & Hc2 & Hc3 & Hc4).
  { intros x Hx. apply Hdom. by right. }
  split; [rewrite Hrem; set_solver|]. split; [set_solver|].
  eexists (_ :: calls). split.
  { rewrite Hc1, Hcalls, <-app_assoc. done. }
  split; [by rewrite fmap_cons, Hc2|]. split.
  { rewrite Hc3, filter_cons. cbn [call_result].
    destruct result; [rewrite decide_True by done|rewrite decide_False by done];
      simpl; lia. }
  intros c [->|Hc]%elem_of_cons; [done|].
  destruct (Hc4 c Hc) as [? ?]. split; [done|set_solver].
Qed.

(** *** Choosing the nodes of a round *)

Lemma filter_nil_iff {A} (P : A → Prop) `{∀ x, Decision (P x)} (l : list A) :
  filter P l = [] ↔ ∀ x, x ∈ l → ¬ P x.
Proof.
  split; [|apply filter_nil_intro].
  intros Hnil x Hx HP. by apply (filter_nil_not_elem_of P l x).
Qed.

Lemma find_ready_nodes_spec (o : set_order)
    (dependencies : gmap string (list string)) (mapping : idmap)
    (remaining : gset string) (n : string) :
  n ∈ find_ready_nodes o dependencies mapping remaining
  ↔ n ∈ remaining ∧ ∀ d, d ∈ deps_of dependencies n → is_Some (mapping !! d).
Proof.
  unfold find_ready_nodes, unsatisfied_deps.
  rewrite list_elem_of_filter, elem_of_iter, filter_nil_iff.
  split.
  - intros [H1 H2]. split; [done|]. intros d Hd.
    apply not_eq_None_Some. by apply H1.
  - intros [H1 H2]. split; [|done]. intros d Hd.
    apply not_eq_None_Some. by apply H2.
Qed.

Lemma py_min_spec (l : list nat) :
  l ≠ [] → py_min l ∈ l ∧ ∀ x, x ∈ l → py_min l ≤ x.
Proof.
  destruct l as [|x l]; [done|]. intros _. simpl. clear.
  induction l as [|y l IH] in x |- *; simpl.
  - split; [left|]. intros z ->%list_elem_of_singleton. done.
  - destruct (IH x) as [Hin Hle]. split.
    + destruct (Nat.min_spec y (foldr Nat.min x l)) as [[_ ->]|[_ ->]].
      * right; left.
      * apply elem_of_cons in Hin as [->|Hin]; [left|do 2 right; done].
    + intros z Hz.
      assert (foldr Nat.min x l ≤ z ∨ z = y) as [Hzle | ->].
      { apply elem_of_cons in Hz as [->|Hz]; [left; apply Hle; left|].
        apply elem_of_cons in Hz as [->|Hz]; [by right|].
        left. apply Hle. by right. }
      * lia.
      * lia.
Qed.

Lemma forced_nodes_spec (o : set_order)
    (dependencies : gmap string (list string)) (mapping : idmap)
    (remaining : gset string) :
  remaining ≠ ∅ →
  forced_nodes o dependencies mapping remaining ≠ []
  ∧ ∀ n, n ∈ forced_nodes o dependencies mapping remaining
      ↔ n ∈ remaining
        ∧ ∀ n', n' ∈ remaining →
            length (unsatisfied_deps dependencies mapping n)
            ≤ length (unsatisfied_deps dependencies mapping n').
Proof.
  intros Hne. unfold forced_nodes, min_deps.
  set (f := λ nid, length (unsatisfied_deps dependencies mapping nid)).
  assert (f <$> iter o remaining ≠ []) as Hl.
  { intros Hnil%fmap_nil_inv. by apply iter_nil_inv in Hnil. }
  destruct (py_min_spec _ Hl) as [Hin Hle].
  assert (∀ n', n' ∈ remaining → py_min (f <$> iter o remaining) ≤ f n') as Hmin.
  { intros n' Hn'. apply Hle, list_elem_of_fmap_2. by apply elem_of_iter. }
  apply list_elem_of_fmap in Hin as (n0 & Hn0 & Hn0in). split.
  - intros Hnil. rewrite filter_nil_iff in Hnil.
    apply (Hnil n0 Hn0in). by rewrite Hn0.
  - intros n. rewrite list_elem_of_filter, elem_of_iter. fold (f n). split.
    + intros [-> Hn]. split; [done|]. intros n' Hn'. by apply Hmin.
    + intros [Hn Hall]. split; [|done].
      apply Nat.le_antisymm; [|by apply Hmin].
      rewrite Hn0. apply Hall. by apply elem_of_iter in Hn0in.
Qed.

Lemma select_round_nodes_facts (o : set_order)
    (dependencies : gmap string (list string)) (mapping : idmap)
    (remaining : gset string) :
  remaining ≠ ∅ →
  let selected := select_round_nodes o dependencies mapping remaining in
  selected ≠ [] ∧ NoDup selected ∧ ∀ n, n ∈ selected → n ∈ remaining.
Proof.
  intros Hne selected. subst selected. unfold select_round_nodes.
  destruct (find_ready_nodes o dependencies mapping remaining) as [|n l] eqn:Hr.
  - destruct (forced_nodes_spec o dependencies mapping remaining Hne)
      as [Hnn Hspec].
    split; [done|]. split; [apply NoDup_filter, NoDup_iter|].
    intros n Hn. by apply Hspec in Hn as [? _].
  - split; [done|]. rewrite <-Hr. split; [apply NoDup_filter, NoDup_iter|].
    intros x Hx. by apply find_ready_nodes_spec in Hx as [? _].
Qed.

Lemma length_omap_all_Some {A B} (f : A → option B) (l : list A) :
  (∀ x, x ∈ l → is_Some (f x)) → length (omap f l) = length l.
Proof.
  induction l as [|x l IH]; intros Hall; [done|]. rewrite omap_cons_eq.
  destruct (Hall x) as [y ->]; [left|]. simpl. f_equal. apply IH.
  intros z Hz. apply Hall. by right.
Qed.


(** *** The scheduler's invariant *)

Lemma attempted_snoc (st st' : creator) (c : api_call) :
  api_calls st' = api_calls st ++ [c] →
  attempted st' = attempted st ++ [call_node_id c].
Proof. unfold attempted. intros ->. by rewrite fmap_app. Qed.

Lemma sched_inv_new (all_nodes : gmap string node) (dry_run : bool) :
  sched_inv all_nodes dry_run new_creator (dom all_nodes).
Proof.
  split; simpl; try (by intros ? ?%elem_of_nil); try done;
    try (by constructor); try (by intros n Hn; right).
Qed.

Lemma sched_inv_step (w : world) (all_nodes : gmap string node)
    (dry_run : bool) (st : creator) (remaining : gset string)
    (n : string) (nd : node) (preds : list scalar) :
  sched_inv all_nodes dry_run st remaining → n ∈ remaining →
  sched_inv all_nodes dry_run
    (create_node_via_api w n nd preds dry_run st).2 (remaining ∖ {[n]}).
Proof.
  intros [Hnd Hatt Hrem Hsub Hmap Herr Hhash Hcalls] Hn.
  pose proof (create_node_via_api_effect w n nd preds dry_run st)
    as (Hres & Hc & Hm & Hsome & He & Hth).
  set (outcome := if dry_run then None
                  else Some (w (length (api_calls st)) n preds)) in *.
  set (eff := call_effect (test_hash_keys st) outcome) in *.
  destruct (create_node_via_api w n nd preds dry_run st) as [result st'].
  simpl in *.
  assert (n ∉ attempted st) as Hfresh.
  { intros Hin. by destruct (Hatt n Hin). }
  pose proof (attempted_snoc _ _ _ Hc) as Hatt'. simpl in Hatt'.
  assert (∀ x, x ≠ n →
            (x ∈ dom (node_id_mapping st') ↔ x ∈ dom (node_id_mapping st)))
    as Hmap_other.
  { intros x Hx. rewrite Hm. destruct (call_new_id _ _); [|done].
    rewrite dom_insert_L. set_solver. }
  assert (∀ x, x ≠ n → (x ∈ err_ids st' ↔ x ∈ err_ids st)) as Herr_other.
  { intros x Hx. rewrite He. destruct (eff.1.2); [|by rewrite app_nil_r].
    rewrite elem_of_app, list_elem_of_singleton. tauto. }
  split.
  - rewrite Hatt'. apply NoDup_app. split; [done|]. split.
    + intros x Hx ->%list_elem_of_singleton. done.
    + apply NoDup_singleton.
  - intros x. rewrite Hatt', elem_of_app, list_elem_of_singleton.
    intros [Hx| ->].
    + destruct (Hatt x Hx). split; [done|set_solver].
    + split; [by apply Hsub|set_solver].
  - intros x Hx. rewrite Hatt', elem_of_app, list_elem_of_singleton.
    destruct (decide (x = n)) as [->|Hne]; [by left; right|].
    destruct (Hrem x Hx); [by left; left|right; set_solver].
  - set_solver.
  - intros x Hx. rewrite Hatt', elem_of_app, list_elem_of_singleton.
    destruct (decide (x = n)) as [->|Hne]; [by right|].
    left. by apply Hmap, Hmap_other.
  - intros x Hx. rewrite Hatt', elem_of_app, list_elem_of_singleton.
    destruct (decide (x = n)) as [->|Hne]; [by right|].
    left. by apply Herr, Herr_other.
  - congruence.
  - intros c. rewrite Hc, elem_of_app, list_elem_of_singleton.
    intros [Hin| ->].
    + assert (call_node_id c ≠ n) as Hne.
      { intros Heq. apply Hfresh. rewrite <-Heq.
        by apply list_elem_of_fmap_2. }
      destruct (Hcalls c Hin) as (H1 & H2 & H3 & H4).
      unfold call_ok. rewrite Hth, Hmap_other, Herr_other by done. done.
    + unfold call_ok; simpl. rewrite Hth. fold eff. split; [|split; [|split]].
      * rewrite <-Hsome, Hm. destruct (call_new_id _ _) as [v|] eqn:Hv.
        -- rewrite dom_insert_L. split; [by eauto|set_solver].
        -- split; [|by intros [? ?]]. intros Hin. by apply Hmap in Hin.
      * rewrite He. destruct (eff.1.2).
        -- split; [done|]. intros _. apply elem_of_app. right. left.
        -- rewrite app_nil_r. split; [|done]. intros Hin.
           by apply Herr in Hin.
      * done.
      * unfold outcome. by destruct dry_run.
Qed.

Lemma create_ready_nodes_inv (w : world) (all_nodes : gmap string node)
    (dependencies : gmap string (list string)) (dry_run : bool)
    (ready : list string) (st : creator) (remaining : gset string) (rs : nat) :
  NoDup ready → (∀ n, n ∈ ready → n ∈ remaining) →
  sched_inv all_nodes dry_run st remaining →
  let r := create_ready_nodes w all_nodes dependencies dry_run ready st
             remaining rs in
  sched_inv all_nodes dry_run r.1.1 r.1.2.
Proof.
  revert st remaining rs.
  induction ready as [|n rest IH]; intros st remaining rs Hnd Hin Hinv r;
    [done|].
  subst r. cbn [create_ready_nodes].
  destruct (all_nodes !! n) as [nd|]; [|done].
  pose proof (sched_inv_step w all_nodes dry_run st remaining n nd
    (mapped_deps (node_id_mapping st) (deps_of dependencies n)) Hinv) as Hstep.
  destruct (create_node_via_api w n nd _ dry_run st) as [result st1].
  apply NoDup_cons in Hnd as [Hn Hnd].
  apply IH; [done| |].
  - intros x Hx. apply elem_of_difference. split; [apply Hin; by right|].
    intros ->%elem_of_singleton. done.
  - apply Hstep, Hin. left.
Qed.

Lemma creation_loop_inv (fuel : nat) (o : set_order) (w : world)
    (all_nodes : gmap string node) (dependencies : gmap string (list string))
    (dry_run : bool) (st : creator) (remaining : gset string) (cc : nat) :
  sched_inv all_nodes dry_run st remaining → size remaining ≤ fuel →
  let r := creation_loop fuel o w all_nodes dependencies dry_run st
             remaining cc in
  sched_inv all_nodes dry_run r.1.1 r.1.2
  ∧ (r.1.2 ≠ ∅ → ∃ c, c ∈ api_calls r.1.1 ∧ call_result c = false).
Proof.
  revert st remaining cc.
  induction fuel as [|fuel IH]; intros st remaining cc Hinv Hsize r; subst r.
  { simpl. split; [done|]. intros Hne. exfalso. apply Hne.
    apply leibniz_equiv, size_empty_inv. lia. }
  cbn [creation_loop]. case_decide as Hempty; [by subst|].
  destruct (select_round_nodes_facts o dependencies (node_id_mapping st)
              remaining Hempty) as (Hsel_ne & Hsel_nd & Hsel_in).
  pose proof (create_ready_nodes_inv w all_nodes dependencies dry_run _ st
                remaining 0 Hsel_nd Hsel_in Hinv) as Hinv'.
  destruct (create_ready_nodes_calls w all_nodes dependencies dry_run
              (select_round_nodes o dependencies (node_id_mapping st) remaining)
              st remaining 0)
    as (Hrem & _ & calls & Hc1 & Hc2 & Hc3 & _).
  { intros n Hn. by apply (inv_remaining_sub _ _ _ _ Hinv), Hsel_in. }
  fold (creation_round o w all_nodes dependencies dry_run st remaining) in *.
  destruct (creation_round o w all_nodes dependencies dry_run st remaining)
    as [[st1 rem1] rs1]. simpl in *.
  case_decide as Hstop.
  - simpl. split; [done|]. intros _. destruct Hstop as [-> _].
    destruct calls as [|c calls].
    { simpl in Hc2. by rewrite <-Hc2 in Hsel_ne. }
    exists c. split; [rewrite Hc1; apply elem_of_app; right; left|].
    rewrite filter_cons in Hc3. destruct (call_result c); [|done].
    by rewrite decide_True in Hc3 by done.
  - apply IH; [done|].
    assert (rem1 ⊂ remaining) as Hlt; [|apply subset_size in Hlt; lia].
    destruct (select_round_nodes o dependencies (node_id_mapping st) remaining)
      as [|n sel]; [done|].
    assert (n ∈ remaining) by (apply Hsel_in; left).
    rewrite Hrem. set_solver.
Qed.

Lemma call_effect_dry (hash_keys : bool) :
  call_effect hash_keys None = (true, false, true).
Proof. done. Qed.


(** *** The scheduler on the scenario of the specification *)

Example scenario_dependencies_eq :
  scenario_dependencies
  = {[ "H_CUSTOMER" := []; "S_CUSTOMER_CURRENT" := ["H_CUSTOMER"] ]}.
Proof. by vm_compute. Qed.

(** Dry run: the hub is created first, then the satellite with the hub's
    new id as its only predecessor. *)
Example scenario_dry_run :
  let st := (create_nodes_in_dependency_order elements_order rejecting_world
               scenario_nodes scenario_dependencies true new_creator).1 in
  node_id_mapping st
  = {[ "H_CUSTOMER" := SStr "new_001"; "S_CUSTOMER_CURRENT" := SStr "new_002" ]}
  ∧ (λ c, (call_node_id c, call_predecessor_ids c)) <$> api_calls st
    = [("H_CUSTOMER", []); ("S_CUSTOMER_CURRENT", [SStr "new_001"])]
  ∧ creation_errors st = [].
Proof. by vm_compute. Qed.


(** A created node whose configuration is rejected is in the mapping and
    in the error list. *)
Example scheduler_created_and_failed :
  let st := (create_nodes_in_dependency_order elements_order
               misconfiguring_world scenario_nodes scenario_dependencies false
               new_creator).1 in
  node_id_mapping st
  = {[ "H_CUSTOMER" := SInt 1; "S_CUSTOMER_CURRENT" := SInt 2 ]}
  ∧ err_ids st = ["H_CUSTOMER"; "S_CUSTOMER_CURRENT"].
Proof. by vm_compute. Qed.


(** The invariant applied to the satellite of the scenario, which refers
    to itself and to a node outside the set. *)
Lemma analyze_dependencies_invariant_witness :
  ∃ deps, scenario_dependencies !! "S_CUSTOMER_CURRENT" = Some deps
  ∧ ("S_CUSTOMER_CURRENT" ∉ deps)
  ∧ ∀ d, d ∈ deps → d ∈ dom scenario_nodes.
Proof.
  destruct (analyze_dependencies_invariant elements_order scenario_nodes
              "S_CUSTOMER_CURRENT"
              (lineage_node "S_CUSTOMER_CURRENT" "Satellite"
                 ["H_CUSTOMER"; "STG_CUSTOMER"; "S_CUSTOMER_CURRENT"]))
    as (deps & H1 & H2 & H3 & _).
  - by vm_compute.
  - exists deps. split; [exact H1|]. split; [exact H2|exact H3].
Defined.

(** ** Node store *)

Lemma prefix_app_inv (p a b : string) : p +:+ a = p +:+ b → a = b.
Proof.
  induction p as [|c p IH]; simpl; [done|]. intros [= H]. by apply IH.
Qed.

Lemma cache_key_inj (workspace_id a b : string) :
  cache_key workspace_id a = cache_key workspace_id b → a = b.
Proof.
  unfold cache_key. intros H%prefix_app_inv. by apply (prefix_app_inv "_").
Qed.



(** ** Classification *)

Lemma categorized_manual_never (node_type : string) :
  categorized_manual node_type = false.
Proof.
  unfold categorized_manual. case_bool_decide as H; [|done].
  apply elem_of_cons in H as [->|H]; [done|].
  apply elem_of_cons in H as [->|H]; [done|]. by apply elem_of_nil in H.
Qed.

(** [_categorize_dependencies] never files a node as manual-required. *)
Lemma categorize_loop_manual (rm : remote) (workspace_id : string)
    (ids : list string) (st : migration) (api : gset string)
    (manual : list manual_node) (failed : list string) :
  (categorize_loop rm workspace_id ids st api manual failed).1.1.2 = manual.
Proof.
  revert st api manual failed.
  induction ids as [|node_id rest IH]; intros st api manual failed; [done|].
  cbn [categorize_loop]. destruct (skipped_reference node_id); [apply IH|].
  destruct (_get_node_details rm workspace_id node_id st) as [[n|] st'];
    [|apply IH].
  destruct (node_truthy n); [|apply IH].
  rewrite categorized_manual_never. apply IH.
Qed.

(** The sibling classifier [_is_api_migratable_node] rejects every node
    whose type is in the disallowed set; the resolver does not call it. *)
Lemma is_api_migratable_disallowed_type (n : node) :
  str_lower (default "" (node_type n)) ∈ non_migratable_types →
  _is_api_migratable_node (Some n) = false.
Proof.
  intros H. unfold _is_api_migratable_node.
  destruct (node_truthy n); [|done]. simpl. by rewrite bool_decide_true.
Qed.

(** C3 fails on the code: a fetched node of type [Source] is placed in
    [api_migratable], and [manual_required] stays empty, although the
    sibling classifier rejects the same node. *)
Theorem categorize_source_node_migratable :
  let n := lineage_node "RAW_CUSTOMER" "Source" [] in
  let r := _categorize_dependencies elements_order snapshot_remote "7"
             {[ id_source ]} new_migration in
  snapshot_response "7" id_source = HttpResponse 200 (inr n)
  ∧ r.1.1.1 = {[ id_source ]}
  ∧ r.1.1.2 = []
  ∧ r.1.2 = []
  ∧ _is_api_migratable_node (Some n) = false.
Proof. by vm_compute. Qed.

(** ** Discovery *)

Lemma get_node_details_snapshot (snap : string → string → response)
    (workspace_id node_id : string) (st : migration) :
  cache_ok snap workspace_id st →
  let r := _get_node_details (λ _, snap) workspace_id node_id st in
  r.1 = snapshot_node snap workspace_id node_id
  ∧ cache_ok snap workspace_id r.2.
Proof.
  intros Hok r. subst r. unfold _get_node_details.
  destruct (node_cache st !! cache_key workspace_id node_id) as [n|] eqn:Hc.
  { simpl. split; [|done]. symmetry. by apply Hok. }
  assert (∀ n, snapshot_node snap workspace_id node_id = Some n →
            cache_ok snap workspace_id
              {| node_cache :=
                   <[cache_key workspace_id node_id := n]> (node_cache st);
                 failed_node_downloads := failed_node_downloads st;
                 remote_reads := remote_reads st ++ [(workspace_id, node_id)] |})
    as Hins.
  { intros n Hn id n' Hl. simpl in Hl.
    destruct (decide (cache_key workspace_id node_id = cache_key workspace_id id))
      as [Heq|Hne].
    - rewrite Heq, lookup_insert_eq in Hl. injection Hl as <-.
      by apply cache_key_inj in Heq as <-.
    - rewrite lookup_insert_ne in Hl by done. by apply Hok. }
  unfold get_node_details_try. unfold snapshot_node in *.
  destruct (snap workspace_id node_id) as [status body|msg]; [|done].
  destruct (status =? 200)%Z; [|by destruct body].
  destruct body as [msg|n]; [done|]. simpl. split; [done|]. by apply Hins.
Qed.

Lemma process_nodes_trace (rm : remote) (workspace_id : string)
    (nodes : list string) (st : migration) (new_deps processed : gset string)
    (trace : list string) :
  let r := process_nodes rm workspace_id nodes st new_deps processed trace in
  r.1.2 = list_to_set nodes ∪ processed ∧ r.2 = trace ++ nodes.
Proof.
  revert st new_deps processed trace.
  induction nodes as [|n rest IH]; intros st new_deps processed trace r; subst r.
  { simpl. split; [set_solver|by rewrite app_nil_r]. }
  cbn [process_nodes].
  destruct (_get_node_details rm workspace_id n st) as [node_data st'].
  destruct (IH st' (if fetched_truthy node_data
                    then new_deps ∪ _extract_dependencies_from_node node_data
                    else new_deps) ({[n]} ∪ processed) (trace ++ [n]))
    as [-> ->].
  split; [set_solver|by rewrite <-app_assoc].
Qed.

Lemma process_nodes_snapshot (snap : string → string → response)
    (workspace_id : string) (nodes : list string) (st : migration)
    (new_deps processed : gset string) (trace : list string) :
  cache_ok snap workspace_id st →
  let r := process_nodes (λ _, snap) workspace_id nodes st new_deps processed
             trace in
  cache_ok snap workspace_id r.1.1.1
  ∧ r.1.1.2 = new_deps ∪ ⋃ (node_dependencies snap workspace_id <$> nodes).
Proof.
  revert st new_deps processed trace.
  induction nodes as [|n rest IH]; intros st new_deps processed trace Hok r;
    subst r.
  { simpl. split; [done|set_solver]. }
  cbn [process_nodes].
  destruct (get_node_details_snapshot snap workspace_id n st Hok) as [Hr Hok'].
  destruct (_get_node_details (λ _, snap) workspace_id n st) as [node_data st'].
  simpl in Hr, Hok'. subst node_data.
  destruct (IH st' (if fetched_truthy (snapshot_node snap workspace_id n)
                    then new_deps ∪ _extract_dependencies_from_node
                                      (snapshot_node snap workspace_id n)
                    else new_deps) ({[n]} ∪ processed) (trace ++ [n]) Hok')
    as [Hc ->].
  split; [done|]. rewrite fmap_cons. simpl. unfold node_dependencies at 2.
  destruct (fetched_truthy (snapshot_node snap workspace_id n)); set_solver.
Qed.

Lemma union_list_iter (o : set_order) (f : string → gset string)
    (s : gset string) :
  ⋃ (f <$> iter o s) = ⋃ (f <$> elements s).
Proof.
  apply set_eq. intros x. rewrite !elem_of_union_list.
  split; intros (X & HX & Hx); exists X; (split; [|done]);
    apply list_elem_of_fmap in HX as (y & -> & Hy); apply list_elem_of_fmap_2.
  - by apply elem_of_elements, (elem_of_iter o).
  - by apply (elem_of_iter o), elem_of_elements.
Qed.

(** Under a snapshot the discovered set does not depend on the cache
    contents or on the iteration order. *)
Lemma resolve_loop_snapshot (fuel : nat) (o : set_order)
    (snap : string → string → response) (workspace_id : string)
    (d : discovery) :
  cache_ok snap workspace_id (disc_state d) →
  let d' := resolve_loop fuel o (λ _, snap) workspace_id d in
  cache_ok snap workspace_id (disc_state d')
  ∧ all_discovered_nodes d'
    = discover fuel snap workspace_id (all_discovered_nodes d)
        (processed_nodes d).
Proof.
  revert d. induction fuel as [|fuel IH]; intros d Hok d'; subst d'; [done|].
  cbn [resolve_loop discover]. case_decide as Hempty; [done|].
  destruct (process_nodes_snapshot snap workspace_id
              (iter o (all_discovered_nodes d ∖ processed_nodes d))
              (disc_state d) ∅ (processed_nodes d) (processed_trace d) Hok)
    as [Hok' Hnew].
  destruct (process_nodes_trace (λ _, snap) workspace_id
              (iter o (all_discovered_nodes d ∖ processed_nodes d))
              (disc_state d) ∅ (processed_nodes d) (processed_trace d))
    as [Hproc _].
  destruct (process_nodes _ _ _ _ _ _ _) as [[[st' new_deps] processed] trace].
  simpl in Hok', Hnew, Hproc.
  assert (new_deps = frontier_dependencies snap workspace_id
                       (all_discovered_nodes d ∖ processed_nodes d)) as ->.
  { rewrite Hnew, union_list_iter. unfold frontier_dependencies. set_solver. }
  case_decide; [done|].
  destruct (IH (Discovery st'
                  (all_discovered_nodes d
                   ∪ frontier_dependencies snap workspace_id
                       (all_discovered_nodes d ∖ processed_nodes d))
                  processed (S (current_depth d)) trace) Hok') as [Hc Hd].
  split; [done|]. rewrite Hd. simpl. f_equal. rewrite Hproc.
  apply set_eq. intros x. rewrite !elem_of_union, elem_of_list_to_set.
  by rewrite (elem_of_iter o).
Qed.

Lemma categorize_loop_cache_ok (snap : string → string → response)
    (workspace_id : string) (ids : list string) (st : migration)
    (api : gset string) (manual : list manual_node) (failed : list string) :
  cache_ok snap workspace_id st →
  cache_ok snap workspace_id
    (categorize_loop (λ _, snap) workspace_id ids st api manual failed).2.
Proof.
  revert st api manual failed.
  induction ids as [|node_id rest IH]; intros st api manual failed Hok; [done|].
  cbn [categorize_loop]. destruct (skipped_reference node_id); [by apply IH|].
  destruct (get_node_details_snapshot snap workspace_id node_id st Hok)
    as [_ Hok'].
  destruct (_get_node_details (λ _, snap) workspace_id node_id st)
    as [[n|] st']; [|by apply IH].
  destruct (node_truthy n); [|by apply IH].
  destruct (categorized_manual _); by apply IH.
Qed.

Lemma resolve_all_dependencies_snapshot (o : set_order)
    (snap : string → string → response) (workspace_id : string)
    (initial_nodes : list scalar) (max_depth : nat) (st : migration) :
  cache_ok snap workspace_id st →
  let r := _resolve_all_dependencies o (λ _, snap) workspace_id initial_nodes
             max_depth st in
  all_discovered r.1
  = discover max_depth snap workspace_id
      (list_to_set (py_str <$> initial_nodes)) ∅
  ∧ cache_ok snap workspace_id r.2.
Proof.
  intros Hok r. subst r. unfold _resolve_all_dependencies.
  destruct (resolve_loop_snapshot max_depth o snap workspace_id
              (Discovery st (list_to_set (py_str <$> initial_nodes)) ∅ 0 []) Hok)
    as [Hok' Hd]. simpl in Hd.
  pose proof (categorize_loop_cache_ok snap workspace_id
                (iter o (all_discovered_nodes
                   (resolve_loop max_depth o (λ _, snap) workspace_id
                      (Discovery st (list_to_set (py_str <$> initial_nodes))
                         ∅ 0 []))))
                _ ∅ [] [] Hok') as Hcat.
  unfold _categorize_dependencies.
  destruct (categorize_loop _ _ _ _ _ _ _) as [[[api manual] failed] st'].
  simpl in *. done.
Qed.

(** C8. Under a fixed workspace snapshot, and from any cache that holds
    only answers of that snapshot (the empty cache of a fresh run
    included), running the resolver twice on the same seeds, the second
    run on the state the first one left, yields the same discovered set,
    whatever the set iteration orders; that set is a function of the seeds
    and the snapshot alone. *)
Theorem resolve_all_dependencies_idempotent (o1 o2 : set_order)
    (snap : string → string → response) (workspace_id : string)
    (initial_nodes : list scalar) (max_depth : nat) (st : migration) :
  cache_ok snap workspace_id st →
  let r1 := _resolve_all_dependencies o1 (λ _, snap) workspace_id
              initial_nodes max_depth st in
  let r2 := _resolve_all_dependencies o2 (λ _, snap) workspace_id
              initial_nodes max_depth r1.2 in
  all_discovered r2.1 = all_discovered r1.1
  ∧ all_discovered r1.1
    = discover max_depth snap workspace_id
        (list_to_set (py_str <$> initial_nodes)) ∅.
Proof.
  intros Hok r1 r2.
  destruct (resolve_all_dependencies_snapshot o1 snap workspace_id
              initial_nodes max_depth st Hok) as [H1 Hok1].
  destruct (resolve_all_dependencies_snapshot o2 snap workspace_id
              initial_nodes max_depth _ Hok1) as [H2 _].
  fold r1 in H1, H2. fold r2 in H2. split; [by rewrite H2, H1|done].
Qed.

Lemma cache_ok_new (snap : string → string → response) (workspace_id : string) :
  cache_ok snap workspace_id new_migration.
Proof. intros id n H. simpl in H. by rewrite lookup_empty in H. Qed.

(** Idempotence applied to the example snapshot, from a fresh run. *)
Lemma resolve_all_dependencies_idempotent_witness :
  let r1 := _resolve_all_dependencies elements_order snapshot_remote "7"
              [SStr id_link_a] 10 new_migration in
  let r2 := _resolve_all_dependencies elements_order snapshot_remote "7"
              [SStr id_link_a] 10 r1.2 in
  all_discovered r2.1 = all_discovered r1.1.
Proof.
  intros r1 r2.
  exact (proj1 (resolve_all_dependencies_idempotent elements_order
                  elements_order snapshot_response "7" [SStr id_link_a] 10
                  new_migration (cache_ok_new snapshot_response "7"))).
Defined.

(** *** The processing trace *)

Lemma resolve_loop_trace (fuel : nat) (o : set_order) (rm : remote)
    (workspace_id : string) (d : discovery) :
  NoDup (processed_trace d) →
  (∀ x, x ∈ processed_trace d ↔ x ∈ processed_nodes d) →
  processed_nodes d ⊆ all_discovered_nodes d →
  let d' := resolve_loop fuel o rm workspace_id d in
  NoDup (processed_trace d')
  ∧ (∀ x, x ∈ processed_trace d' ↔ x ∈ processed_nodes d')
  ∧ processed_nodes d' ⊆ all_discovered_nodes d'
  ∧ current_depth d' ≤ current_depth d + fuel
  ∧ all_discovered_nodes d ⊆ all_discovered_nodes d'.
Proof.
  revert d. induction fuel as [|fuel IH]; intros d Hnd Htr Hsub d'; subst d'.
  { simpl. repeat split; try done; try apply Htr. lia. }
  cbn [resolve_loop]. case_decide as Hempty.
  { repeat split; try done; try apply Htr. lia. }
  destruct (process_nodes_trace rm workspace_id
              (iter o (all_discovered_nodes d ∖ processed_nodes d))
              (disc_state d) ∅ (processed_nodes d) (processed_trace d))
    as [Hproc Htrace].
  destruct (process_nodes _ _ _ _ _ _ _) as [[[st' new_deps] processed] trace].
  simpl in Hproc, Htrace.
  assert (NoDup trace) as Hnd'.
  { rewrite Htrace. apply NoDup_app. split; [done|]. split; [|apply NoDup_iter].
    intros x Hx Hx'. apply elem_of_iter in Hx'. apply Htr in Hx. set_solver. }
  assert (∀ x, x ∈ trace ↔ x ∈ processed) as Htr'.
  { intros x. rewrite Htrace, Hproc, elem_of_app, elem_of_union,
      elem_of_list_to_set, Htr. tauto. }
  assert (processed ⊆ all_discovered_nodes d) as Hsub'.
  { rewrite Hproc. intros x. rewrite elem_of_union, elem_of_list_to_set,
      elem_of_iter. set_solver. }
  case_decide.
  { simpl. repeat split; try done; try apply Htr'. lia. }
  destruct (IH (Discovery st' (all_discovered_nodes d ∪ new_deps) processed
                  (S (current_depth d)) trace) Hnd' Htr')
    as (H1 & H2 & H3 & H4 & H5); [simpl; set_solver|].
  simpl in *. repeat split; try done; try apply H2; [lia|set_solver].
Qed.





(** The resolver on the example snapshot: the two links and the source are
    discovered in two rounds, each processed once. *)
Example resolve_cycle_example :
  let r := (_resolve_all_dependencies elements_order snapshot_remote "7"
              [SStr id_link_a] 10 new_migration).1 in
  all_discovered r = {[ id_link_a; id_link_b; id_source ]}
  ∧ length (resolution_trace r) = 3
  ∧ search_depth_used r = 2.
Proof. by vm_compute. Qed.

(* ===================================================================== *)
(** * Part III: further properties of the code                            *)
(* ===================================================================== *)

(** ** Loading and filtering the exported nodes *)

Lemma load_and_consolidate_loop_spec
    (json_files : list (string * option export_file))
    (all_nodes : gmap string node) (all_subgraphs : list subgraph_info) :
  let r := load_and_consolidate_loop json_files all_nodes all_subgraphs in
  (∀ id, r.1 !! id
         = match all_nodes !! id with
           | Some n => Some n
           | None =>
               list_find (λ data, is_Some (ef_node_details data !! id))
                 (omap snd json_files)
               ≫= λ p, ef_node_details p.2 !! id
           end)
  ∧ sg_source_file <$> r.2
    = (sg_source_file <$> all_subgraphs)
      ++ (fst <$> filter (λ f, is_Some f.2) json_files).
Proof.
  revert all_nodes all_subgraphs.
  induction json_files as [|[name [data|]] rest IH];
    intros all_nodes all_subgraphs r; subst r.
  - simpl. split; [|by rewrite app_nil_r]. intros id.
    by destruct (all_nodes !! id).
  - cbn [load_and_consolidate_loop].
    destruct (IH (all_nodes ∪ ef_node_details data)
                (all_subgraphs
                 ++ [SubgraphInfo (default "Unknown" (ef_subgraph_name data))
                       name (ef_steps data) (size (ef_node_details data))]))
      as [Hl Hs].
    split.
    + intros id. rewrite Hl, lookup_union. rewrite omap_cons_eq. simpl.
      destruct (all_nodes !! id) as [n|] eqn:Hn; simpl.
      { by rewrite union_Some_l. }
      rewrite (left_id None _). 
      destruct (ef_node_details data !! id) as [n|] eqn:Hd; simpl.
      * done.
      * destruct (list_find _ _) as [[i f]|]; done.
    + rewrite Hs, fmap_app, filter_cons_True by (simpl; eauto).
      simpl. by rewrite <-app_assoc.
  - cbn [load_and_consolidate_loop]. destruct (IH all_nodes all_subgraphs)
      as [Hl Hs].
    split; [done|]. rewrite Hs, filter_cons_False; [done|].
    simpl. by intros [? ?].
Qed.

(** X1. Consolidation keeps, for every node id, the data of the first
    readable file that has it (later duplicates are ignored), has no other
    ids, and records one subgraph per readable file, in order; unreadable
    files contribute nothing. *)
Theorem load_and_consolidate_first_wins
    (json_files : list (string * option export_file)) :
  let r := load_and_consolidate_data json_files in
  let readable := omap snd json_files in
  (∀ id, r.1 !! id
         = list_find (λ data, is_Some (ef_node_details data !! id)) readable
           ≫= λ p, ef_node_details p.2 !! id)
  ∧ (∀ id, is_Some (r.1 !! id)
           ↔ ∃ data, data ∈ readable ∧ is_Some (ef_node_details data !! id))
  ∧ sg_source_file <$> r.2 = fst <$> filter (λ f, is_Some f.2) json_files.
Proof.
  intros r readable.
  destruct (load_and_consolidate_loop_spec json_files ∅ []) as [Hl Hs].
  fold (load_and_consolidate_data json_files) in Hl, Hs. fold r in Hl, Hs.
  assert (∀ id, r.1 !! id
            = list_find (λ data, is_Some (ef_node_details data !! id)) readable
              ≫= λ p, ef_node_details p.2 !! id) as Hfirst.
  { intros id. rewrite Hl. by rewrite lookup_empty. }
  split; [done|]. split; [|done].
  intros id. rewrite Hfirst. split.
  - destruct (list_find _ readable) as [[i data]|] eqn:Hf; simpl;
      [|by intros [? ?]].
    intros Hsome. apply list_find_Some in Hf as (Hi & _ & _).
    exists data. split; [by eapply list_elem_of_lookup_2|done].
  - intros (data & Hin & Hsome).
    destruct (list_find (λ data, is_Some (ef_node_details data !! id)) readable)
      as [[i f]|] eqn:Hf; simpl.
    + by apply list_find_Some in Hf as (_ & ? & _).
    + apply list_find_None in Hf. rewrite Forall_forall in Hf.
      by destruct (Hf data Hin).
Qed.

(** X2. Type filtering splits the nodes into two disjoint maps that
    together are the input.  A node is included exactly when its
    normalized type is allowed; nodes without a type, and nodes of type
    [Source], [Stage], [36] or [205], are always excluded.  Dependency
    analysis of the included nodes then names included nodes only. *)
Theorem filter_nodes_by_type_partition (o : set_order)
    (all_nodes : gmap string node) :
  let r := filter_nodes_by_type all_nodes in
  r.1 ##ₘ r.2 ∧ r.1 ∪ r.2 = all_nodes
  ∧ (∀ id n, r.1 !! id = Some n
             ↔ all_nodes !! id = Some n ∧ normalized_type n ∈ allowed_types)
  ∧ (∀ id n, all_nodes !! id = Some n →
       node_nodeType n ∈ [None; Some "Source"; Some "Stage"; Some "36"; Some "205"] →
       r.1 !! id = None ∧ r.2 !! id = Some n)
  ∧ (∀ id deps d, analyze_dependencies o r.1 !! id = Some deps → d ∈ deps →
       ∃ n, all_nodes !! d = Some n ∧ normalized_type n ∈ allowed_types).
Proof.
  intros r. subst r. unfold filter_nodes_by_type. simpl.
  split; [apply map_disjoint_filter_complement|].
  split; [apply map_filter_union_complement|].
  assert (∀ id n,
            filter (λ kv, normalized_type kv.2 ∈ allowed_types) all_nodes !! id
            = Some n
            ↔ all_nodes !! id = Some n ∧ normalized_type n ∈ allowed_types)
    as Hin.
  { intros id n. by rewrite map_lookup_filter_Some. }
  split; [done|]. split.
  - intros id n Hn Hty.
    assert (normalized_type n ∉ allowed_types) as Hex.
    { unfold normalized_type, raw_node_type.
      repeat (apply elem_of_cons in Hty as [->|Hty];
              [apply (bool_decide_unpack _); by vm_compute|]).
      by apply elem_of_nil in Hty. }
    split.
    + apply map_lookup_filter_None. right. intros n' Hn'. simpl.
      rewrite Hn in Hn'. by injection Hn' as <-.
    + by apply map_lookup_filter_Some.
  - intros id deps d Hdeps Hd.
    rewrite analyze_dependencies_lookup in Hdeps.
    destruct (filter _ all_nodes !! id) as [nd|]; [|done].
    injection Hdeps as <-. apply list_elem_of_filter in Hd as [Hd _].
    apply elem_of_dom in Hd as [n Hn]. exists n. by apply Hin.
Qed.

(** ** The composer *)

Lemma fresh_ids_idem (a b : list string) :
  fresh_ids (fresh_ids (a ++ b) ∅ ++ b) ∅ = fresh_ids (a ++ b) ∅.
Proof.
  rewrite (fresh_ids_app (fresh_ids (a ++ b) ∅) b).
  rewrite (fresh_ids_NoDup_id (fresh_ids (a ++ b) ∅))
    by apply NoDup_fresh_ids.
  rewrite (fresh_ids_all_seen b); [by rewrite app_nil_r|].
  intros x Hx. apply elem_of_union_l, elem_of_list_to_set, elem_of_fresh_ids.
  set_solver.
Qed.

(** X3. A merge never drops or reorders live members: the result starts
    with the existing steps in their order (first occurrences only), and
    continues with the mapped ids that are not among them, each once.  When
    the existing list has no duplicate it is a prefix of the result as it
    is. *)
Theorem merge_steps_keeps_existing
    (existing_steps mapped_steps : option (list scalar)) :
  let existing := _normalize_ids existing_steps in
  let mapped := _normalize_ids mapped_steps in
  ∃ added, merge_steps existing_steps mapped_steps
           = fresh_ids existing ∅ ++ added
  ∧ NoDup added
  ∧ (∀ x, x ∈ added ↔ x ∈ mapped ∧ x ∉ existing)
  ∧ (NoDup existing →
     merge_steps existing_steps mapped_steps = existing ++ added)
  ∧ (mapped = [] → added = []).
Proof.
  intros existing mapped.
  exists (fresh_ids mapped (list_to_set (fresh_ids existing ∅) ∪ ∅)).
  assert (merge_steps existing_steps mapped_steps
          = fresh_ids existing ∅
            ++ fresh_ids mapped (list_to_set (fresh_ids existing ∅) ∪ ∅)) as Heq.
  { unfold merge_steps. fold existing mapped.
    by rewrite merge_steps_loop_fresh, fresh_ids_app. }
  split; [done|]. split; [apply NoDup_fresh_ids|]. split; [|split].
  - intros x. rewrite elem_of_fresh_ids, elem_of_union, elem_of_list_to_set,
      elem_of_fresh_ids. set_solver.
  - intros Hnd. by rewrite Heq, fresh_ids_NoDup_id.
  - by intros ->.
Qed.

(** X4. One composer pass for a subgraph: the written membership has no
    duplicate, keeps every live step, adds exactly the members that
    [map_and_preserve_all_nodes] returns, and reports at most as many
    unmapped members as there are original ones.  Running the pass again
    on its own output changes nothing. *)
Theorem compose_subgraph_stable (original_nodes : list scalar) (m : idmap)
    (r : option (gmap string scalar)) (current_steps : list string) :
  let res := compose_subgraph original_nodes m r current_steps in
  NoDup res.1
  ∧ (∀ x, x ∈ res.1
          ↔ x ∈ current_steps
            ∨ x ∈ (map_and_preserve_all_nodes original_nodes m r).1)
  ∧ res.2 ≤ length original_nodes
  ∧ compose_subgraph original_nodes m r res.1 = res.
Proof.
  intros res. subst res. unfold compose_subgraph.
  pose proof (length_omap_filter_None (member_target m r)
                (py_str <$> original_nodes)) as Hlen.
  rewrite length_fmap in Hlen.
  unfold map_and_preserve_all_nodes.
  rewrite map_and_preserve_loop_spec. simpl.
  set (all_nodes := omap (member_target m r) (py_str <$> original_nodes)
                    ++ filter (λ k, member_target m r k = None)
                         (py_str <$> original_nodes)).
  unfold merge_steps. rewrite !normalize_ids_strs, !merge_steps_loop_fresh.
  simpl. split; [apply NoDup_fresh_ids|]. split; [|split].
  - intros x. rewrite elem_of_fresh_ids, elem_of_app. set_solver.
  - lia.
  - by rewrite fresh_ids_idem.
Qed.

(** ** The node store and the resolver, continued *)

Lemma migration_le_refl (st : migration) : migration_le st st.
Proof. by repeat split. Qed.

Lemma migration_le_trans (st1 st2 st3 : migration) :
  migration_le st1 st2 → migration_le st2 st3 → migration_le st1 st3.
Proof.
  intros (H1 & H2 & H3) (H4 & H5 & H6). repeat split; by etrans.
Qed.

Lemma get_node_details_le (rm : remote) (workspace_id node_id : string)
    (st : migration) :
  migration_le st (_get_node_details rm workspace_id node_id st).2.
Proof.
  unfold _get_node_details.
  destruct (node_cache st !! cache_key workspace_id node_id) eqn:Hc;
    [apply migration_le_refl|].
  unfold get_node_details_try.
  destruct (rm _ _ _) as [status body|msg]; simpl.
  - destruct (status =? 200)%Z; [destruct body|]; simpl;
      repeat split; simpl; try done; try (by apply prefix_app_r);
      by apply insert_subseteq.
  - repeat split; simpl; try done; by apply prefix_app_r.
Qed.

(** After a fetch that returned a node, the node is in the cache. *)
Lemma get_node_details_cached (rm : remote) (workspace_id node_id : string)
    (st : migration) (n : node) :
  (_get_node_details rm workspace_id node_id st).1 = Some n →
  node_cache (_get_node_details rm workspace_id node_id st).2
    !! cache_key workspace_id node_id = Some n.
Proof.
  unfold _get_node_details.
  destruct (node_cache st !! cache_key workspace_id node_id) eqn:Hc; simpl.
  { by intros [= <-]. }
  unfold get_node_details_try.
  destruct (rm _ _ _) as [status body|msg]; [|done].
  destruct (status =? 200)%Z; [|done]. destruct body; [done|]. simpl.
  intros [= <-]. by rewrite lookup_insert_eq.
Qed.

Lemma process_nodes_le (rm : remote) (workspace_id : string)
    (nodes : list string) (st : migration) (new_deps processed : gset string)
    (trace : list string) :
  migration_le st
    (process_nodes rm workspace_id nodes st new_deps processed trace).1.1.1.
Proof.
  revert st new_deps processed trace.
  induction nodes as [|n rest IH]; intros st new_deps processed trace;
    [apply migration_le_refl|].
  cbn [process_nodes].
  pose proof (get_node_details_le rm workspace_id n st) as Hle.
  destruct (_get_node_details rm workspace_id n st) as [node_data st'].
  eapply migration_le_trans; [exact Hle|apply IH].
Qed.

Lemma resolve_loop_le (fuel : nat) (o : set_order) (rm : remote)
    (workspace_id : string) (d : discovery) :
  migration_le (disc_state d) (disc_state (resolve_loop fuel o rm workspace_id d)).
Proof.
  revert d. induction fuel as [|fuel IH]; intros d; [apply migration_le_refl|].
  cbn [resolve_loop]. case_decide; [apply migration_le_refl|].
  pose proof (process_nodes_le rm workspace_id
                (iter o (all_discovered_nodes d ∖ processed_nodes d))
                (disc_state d) ∅ (processed_nodes d) (processed_trace d)) as Hle.
  destruct (process_nodes _ _ _ _ _ _ _) as [[[st' new_deps] processed] trace].
  simpl in Hle. case_decide; [done|].
  eapply migration_le_trans; [exact Hle|]. apply (IH (Discovery _ _ _ _ _)).
Qed.

(** The categorization loop: the state grows; the ids filed as migratable
    or failed are exactly the new ids that are not skipped; a migratable id
    has a truthy node in the cache. *)
Lemma categorize_loop_spec (rm : remote) (workspace_id : string)
    (ids : list string) (st : migration) (api : gset string)
    (manual : list manual_node) (failed : list string) :
  NoDup ids →
  (∀ x, x ∈ ids → (x ∉ api) ∧ (x ∉ failed)) →
  NoDup failed → (∀ x, x ∈ api → x ∉ failed) →
  (∀ x, x ∈ api → ∃ n, node_cache st !! cache_key workspace_id x = Some n
                       ∧ node_truthy n = true) →
  let r := categorize_loop rm workspace_id ids st api manual failed in
  migration_le st r.2
  ∧ NoDup r.1.2
  ∧ (∀ x, x ∈ r.1.1.1 → x ∉ r.1.2)
  ∧ (∀ x, x ∈ r.1.1.1 ∨ x ∈ r.1.2
          ↔ x ∈ api ∨ x ∈ failed ∨ (x ∈ ids ∧ skipped_reference x = false))
  ∧ (∀ x, x ∈ r.1.1.1 →
       ∃ n, node_cache r.2 !! cache_key workspace_id x = Some n
            ∧ node_truthy n = true).
Proof.
  revert st api manual failed.
  induction ids as [|id rest IH]; intros st api manual failed Hnd Hfresh Hndf
    Hdisj Hcache r; subst r.
  { simpl. split; [apply migration_le_refl|]. repeat split; try done.
    - set_solver.
    - intros [?|[?|[[]%elem_of_nil _]]]; eauto. }
  apply NoDup_cons in Hnd as [Hid Hnd].
  assert (∀ x, x ∈ rest → (x ∉ api) ∧ (x ∉ failed)) as Hfresh'.
  { intros x Hx. apply Hfresh. by right. }
  destruct (Hfresh id) as [Hida Hidf]; [left|].
  cbn [categorize_loop].
  destruct (skipped_reference id) eqn:Hskip.
  { destruct (IH st api manual failed Hnd Hfresh' Hndf Hdisj Hcache)
      as (H1 & H2 & H3 & H4 & H5).
    split; [done|]. split; [done|]. split; [done|]. split; [|done].
    intros x. rewrite H4, elem_of_cons.
    split; [tauto|]. intros [?|[?|[[-> |?] Hs]]]; try tauto. congruence. }
  pose proof (get_node_details_le rm workspace_id id st) as Hle.
  pose proof (get_node_details_cached rm workspace_id id st) as Hc.
  destruct (_get_node_details rm workspace_id id st) as [node_data st'].
  simpl in Hle, Hc.
  assert (∀ x, x ∈ api →
            ∃ n, node_cache st' !! cache_key workspace_id x = Some n
                 ∧ node_truthy n = true) as Hcache'.
  { intros x Hx. destruct (Hcache x Hx) as (n & Hn & Ht). exists n.
    split; [|done]. destruct Hle as [Hsub _].
    by eapply lookup_weaken. }
  assert (∀ x, x ∈ rest → (x ∉ api) ∧ (x ∉ failed ++ [id])) as Hfresh_f.
  { intros x Hx. destruct (Hfresh' x Hx). split; [done|].
    rewrite elem_of_app, list_elem_of_singleton. intros [?| ->]; done. }
  assert (NoDup (failed ++ [id])) as Hndf'.
  { apply NoDup_app. split; [done|]. split; [|apply NoDup_singleton].
    intros x Hx ->%list_elem_of_singleton. done. }
  assert (∀ x, x ∈ api → x ∉ failed ++ [id]) as Hdisj_f.
  { intros x Hx. rewrite elem_of_app, list_elem_of_singleton.
    intros [?| ->]; [by eapply Hdisj|done]. }
  assert (let r := categorize_loop rm workspace_id rest st' api manual
                     (failed ++ [id]) in
          migration_le st r.2 ∧ NoDup r.1.2
          ∧ (∀ x, x ∈ r.1.1.1 → x ∉ r.1.2)
          ∧ (∀ x, x ∈ r.1.1.1 ∨ x ∈ r.1.2
                  ↔ x ∈ api ∨ x ∈ failed
                    ∨ (x ∈ id :: rest ∧ skipped_reference x = false))
          ∧ (∀ x, x ∈ r.1.1.1 →
               ∃ n, node_cache r.2 !! cache_key workspace_id x = Some n
                    ∧ node_truthy n = true)) as Hfail.
  { destruct (IH st' api manual (failed ++ [id]) Hnd Hfresh_f Hndf' Hdisj_f
                Hcache') as (H1 & H2 & H3 & H4 & H5).
    split; [by eapply migration_le_trans|]. split; [done|]. split; [done|].
    split; [|done]. intros x.
    rewrite H4, elem_of_app, list_elem_of_singleton, elem_of_cons.
    split; [|tauto]. intros [?|[[?| ->]|?]]; tauto. }
  destruct node_data as [n|]; [|exact Hfail].
  destruct (node_truthy n) eqn:Htruthy; [|exact Hfail].
  rewrite categorized_manual_never.
  destruct (IH st' ({[id]} ∪ api) manual failed Hnd) as (H1 & H2 & H3 & H4 & H5).
  - intros x Hx. destruct (Hfresh' x Hx). split; [|done].
    rewrite elem_of_union, elem_of_singleton. intros [-> |?]; done.
  - done.
  - intros x [->%elem_of_singleton|Hx]%elem_of_union; [done|by apply Hdisj].
  - intros x [->%elem_of_singleton|Hx]%elem_of_union; [|by apply Hcache'].
    exists n. split; [by apply Hc|done].
  - split; [by eapply migration_le_trans|]. split; [done|]. split; [done|].
    split; [|done]. intros x.
    rewrite H4, elem_of_union, elem_of_singleton, elem_of_cons.
    split; [|tauto]. intros [[-> |?]|[?|?]]; tauto.
Qed.

Lemma uuid_dependency_shape (v : scalar) (d : string) :
  uuid_dependency v = Some d →
  scalar_truthy v = true ∧ d = py_str v ∧ looks_like_uuid d = true.
Proof.
  unfold uuid_dependency.
  destruct (scalar_truthy v) eqn:Hv; [|done].
  destruct (looks_like_uuid (py_str v)) eqn:Hu; [|done]. simpl.
  by intros [= <-].
Qed.

Lemma extract_dependencies_elem (node_data : option node) (d : string) :
  d ∈ _extract_dependencies_from_node node_data →
  ∃ n v, node_data = Some n ∧ scalar_truthy v = true ∧ d = py_str v
         ∧ (v ∈ column_ref_ids (get_metadata n) ∨ v ∈ alias_ids (get_metadata n))
         ∧ looks_like_uuid d = true.
Proof.
  intros Hd. destruct node_data as [n|]; [|by apply elem_of_empty in Hd].
  simpl in Hd. destruct (node_truthy n); [|by apply elem_of_empty in Hd].
  assert (∃ v, uuid_dependency v = Some d
               ∧ (v ∈ column_ref_ids (get_metadata n)
                  ∨ v ∈ alias_ids (get_metadata n))) as (v & Hv & Hin).
  { apply elem_of_union in Hd as [Hd|Hd];
      apply elem_of_list_to_set, list_elem_of_omap in Hd as (v & Hin & Hv);
      exists v; eauto. }
  apply uuid_dependency_shape in Hv as (Hv & -> & Hu). by exists n, v.
Qed.

(** X5. Only UUID-shaped references become dependencies: every id
    extracted from a node is the string form of a truthy column-reference
    node id or alias value of that node, contains a dash and is longer
    than 30 characters; nothing is extracted from a missing or empty node.
    The categorizer's skip test rejects such an id exactly when it
    contains a dot. *)
Theorem extract_dependencies_shape (node_data : option node) :
  (fetched_truthy node_data = false →
   _extract_dependencies_from_node node_data = ∅)
  ∧ ∀ d, d ∈ _extract_dependencies_from_node node_data →
      (∃ n v, node_data = Some n ∧ scalar_truthy v = true ∧ d = py_str v
              ∧ (v ∈ column_ref_ids (get_metadata n)
                 ∨ v ∈ alias_ids (get_metadata n)))
      ∧ str_contains "-" d = true
      ∧ 30 < String.length d
      ∧ skipped_reference d = str_contains "." d.
Proof.
  split.
  { destruct node_data as [n|]; [|done]. simpl. by intros ->. }
  intros d Hd.
  destruct (extract_dependencies_elem node_data d Hd)
    as (n & v & -> & Hv & -> & Hin & Hu).
  unfold looks_like_uuid in Hu. apply andb_true_iff in Hu as [Hdash Hlen].
  apply Nat.ltb_lt in Hlen.
  split; [by exists n, v|]. split; [done|]. split; [done|].
  unfold skipped_reference. rewrite Hdash. simpl.
  assert ((String.length (py_str v) <? 30) = false) as ->
    by (apply Nat.ltb_ge; lia).
  by rewrite !orb_false_r.
Qed.

(** X6. Categorization, whatever the platform answers: no id is filed
    twice; an id is filed as API-migratable or as failed analysis exactly
    when it is a given id that passes the skip test (no dot, a dash, at
    least 30 characters), so a skipped id, such as a short seed, appears in
    neither list; every migratable id has a truthy node in the cache
    afterwards; and the state only grows. *)
Theorem categorize_dependencies_partition (o : set_order) (rm : remote)
    (workspace_id : string) (all_dependencies : gset string) (st : migration) :
  let r := _categorize_dependencies o rm workspace_id all_dependencies st in
  let api := r.1.1.1 in
  let failed := r.1.2 in
  NoDup failed
  ∧ (∀ x, x ∈ api → x ∉ failed)
  ∧ (∀ x, x ∈ api ∨ x ∈ failed
          ↔ x ∈ all_dependencies ∧ skipped_reference x = false)
  ∧ (∀ x, x ∈ api →
       ∃ n, node_cache r.2 !! cache_key workspace_id x = Some n
            ∧ node_truthy n = true)
  ∧ migration_le st r.2.
Proof.
  intros r api failed. subst r api failed. unfold _categorize_dependencies.
  destruct (categorize_loop_spec rm workspace_id (iter o all_dependencies) st
              ∅ [] []) as (H1 & H2 & H3 & H4 & H5).
  - apply NoDup_iter.
  - intros x _. split; [set_solver|by intros ?%elem_of_nil].
  - constructor.
  - set_solver.
  - set_solver.
  - split; [done|]. split; [done|]. split; [|done].
    intros x. rewrite H4, elem_of_iter. split; [|tauto].
    intros [?|[?%elem_of_nil|?]]; [set_solver|done|done].
Qed.

Lemma process_nodes_new_deps (rm : remote) (workspace_id : string)
    (nodes : list string) (st : migration) (new_deps processed : gset string)
    (trace : list string) (x : string) :
  x ∈ (process_nodes rm workspace_id nodes st new_deps processed trace).1.1.2 →
  x ∈ new_deps ∨ looks_like_uuid x = true.
Proof.
  revert st new_deps processed trace.
  induction nodes as [|n rest IH]; intros st new_deps processed trace;
    [by left|].
  cbn [process_nodes].
  destruct (_get_node_details rm workspace_id n st) as [node_data st'].
  intros Hx. apply IH in Hx as [Hx|Hx]; [|by right].
  destruct (fetched_truthy node_data); [|by left].
  apply elem_of_union in Hx as [Hx|Hx]; [by left|right].
  by destruct (extract_dependencies_elem node_data x Hx)
    as (_ & _ & _ & _ & _ & _ & ?).
Qed.

Lemma resolve_loop_shape (fuel : nat) (o : set_order) (rm : remote)
    (workspace_id : string) (d : discovery) (x : string) :
  x ∈ all_discovered_nodes (resolve_loop fuel o rm workspace_id d) →
  x ∈ all_discovered_nodes d ∨ looks_like_uuid x = true.
Proof.
  revert d. induction fuel as [|fuel IH]; intros d; [by left|].
  cbn [resolve_loop]. case_decide; [by left|].
  pose proof (process_nodes_new_deps rm workspace_id
                (iter o (all_discovered_nodes d ∖ processed_nodes d))
                (disc_state d) ∅ (processed_nodes d) (processed_trace d) x)
    as Hnew.
  destruct (process_nodes _ _ _ _ _ _ _) as [[[st' new_deps] processed] trace].
  simpl in Hnew. case_decide; [by left|].
  intros Hx. apply (IH (Discovery _ _ _ _ _)) in Hx as [Hx|Hx]; [|by right].
  simpl in Hx. apply elem_of_union in Hx as [Hx|Hx]; [by left|].
  destruct (Hnew Hx) as [?|?]; [set_solver|by right].
Qed.

(** X7. The resolver, whatever the platform answers: every seed is
    discovered; every other discovered id is UUID-shaped (a dash, more than
    30 characters); the migratable ids and the failed ids are discovered
    ids and no id is in both; with a depth bound of 0 the discovered set is
    the seed set; cached nodes are never replaced or removed, and failure
    records and remote reads are only appended. *)
Theorem resolve_all_dependencies_shape (o : set_order) (rm : remote)
    (workspace_id : string) (initial_nodes : list scalar) (max_depth : nat)
    (st : migration) :
  let r := _resolve_all_dependencies o rm workspace_id initial_nodes max_depth
             st in
  let seeds : gset string := list_to_set (py_str <$> initial_nodes) in
  seeds ⊆ all_discovered r.1
  ∧ (∀ x, x ∈ all_discovered r.1 → x ∈ seeds ∨ looks_like_uuid x = true)
  ∧ api_migratable r.1 ⊆ all_discovered r.1
  ∧ (∀ x, x ∈ failed_analysis r.1 →
       x ∈ all_discovered r.1 ∧ x ∉ api_migratable r.1)
  ∧ (max_depth = 0 → all_discovered r.1 = seeds)
  ∧ migration_le st r.2.
Proof.
  intros r seeds. subst r. unfold _resolve_all_dependencies. fold seeds.
  set (d0 := Discovery st seeds ∅ 0 []).
  destruct (resolve_loop_trace max_depth o rm workspace_id d0)
    as (_ & _ & _ & _ & Hseeds); simpl; [constructor|set_solver|set_solver|].
  pose proof (resolve_loop_le max_depth o rm workspace_id d0) as Hle.
  pose proof (λ x, resolve_loop_shape max_depth o rm workspace_id d0 x) as Hsh.
  destruct (categorize_loop_spec rm workspace_id
              (iter o (all_discovered_nodes
                         (resolve_loop max_depth o rm workspace_id d0)))
              (disc_state (resolve_loop max_depth o rm workspace_id d0))
              ∅ [] [])
    as (Hle' & _ & Hdisj & Hpart & _).
  { apply NoDup_iter. }
  { intros x _. split; [set_solver|by intros ?%elem_of_nil]. }
  { constructor. }
  { set_solver. }
  { set_solver. }
  unfold _categorize_dependencies.
  destruct (categorize_loop _ _ _ _ _ _ _) as [[[api manual] failed] st'].
  simpl in *. split; [done|]. split; [done|]. split; [|split; [|split]].
  - intros x Hx. destruct (proj1 (Hpart x) (or_introl Hx)) as [?|[?|[Hin _]]];
      [set_solver|by apply elem_of_nil in H|by apply elem_of_iter in Hin].
  - intros x Hx. split.
    + destruct (proj1 (Hpart x) (or_intror Hx)) as [?|[?|[Hin _]]];
        [set_solver|by apply elem_of_nil in H|by apply elem_of_iter in Hin].
    + intros Hx'. by apply (Hdisj x Hx').
  - intros ->. done.
  - by eapply migration_le_trans.
Qed.

Lemma collect_node_details_cached (rm : remote) (workspace_id : string)
    (ids : list string) (st : migration) (node_details : gmap string node) :
  (∀ x, x ∈ ids →
     ∃ n, node_cache st !! cache_key workspace_id x = Some n
          ∧ node_truthy n = true) →
  let r := collect_node_details rm workspace_id ids st node_details in
  r.2 = st
  ∧ ∀ x, r.1 !! x = if decide (x ∈ ids)
                    then node_cache st !! cache_key workspace_id x
                    else node_details !! x.
Proof.
  revert node_details.
  induction ids as [|id rest IH]; intros node_details Hcached r; subst r.
  { cbn [collect_node_details]. split; [done|]. intros x. by simpl. }
  cbn [collect_node_details].
  destruct (Hcached id) as (n & Hn & Ht); [left|].
  assert (_get_node_details rm workspace_id id st = (Some n, st)) as ->.
  { unfold _get_node_details. by rewrite Hn. }
  rewrite Ht.
  destruct (IH (<[id := n]> node_details)) as [Hst Hl].
  { intros x Hx. apply Hcached. by right. }
  split; [done|]. intros x. rewrite Hl.
  destruct (decide (x = id)) as [->|Hne].
  - rewrite (decide_True (P := id ∈ id :: rest)) by left.
    case_decide; [done|]. by rewrite lookup_insert_eq.
  - rewrite lookup_insert_ne by done.
    destruct (decide (x ∈ rest)) as [Hin|Hnin].
    + by rewrite decide_True by (by right).
    + rewrite decide_False; [done|]. by intros [?|?]%elem_of_cons.
Qed.

(** X8. Exporting a subgraph: after resolution, the node-detail pass
    issues no remote read and records no failure (every API-migratable id
    is served from the cache, whatever the platform would answer), and it
    yields a truthy node for every API-migratable id and for no other id. *)
Theorem resolve_and_collect_details (o : set_order) (rm : remote)
    (workspace_id : string) (initial_node_ids : list scalar) (st : migration) :
  let resolved :=
    _resolve_all_dependencies o rm workspace_id initial_node_ids 10 st in
  let r := resolve_and_collect o rm workspace_id initial_node_ids st in
  r.1.1 = resolved.1
  ∧ r.2 = resolved.2
  ∧ dom r.1.2 = api_migratable r.1.1
  ∧ ∀ id n, r.1.2 !! id = Some n →
      node_truthy n = true
      ∧ node_cache r.2 !! cache_key workspace_id id = Some n.
Proof.
  intros resolved r. subst resolved r.
  unfold resolve_and_collect, _resolve_all_dependencies.
  set (d := resolve_loop 10 o rm workspace_id
              (Discovery st (list_to_set (py_str <$> initial_node_ids)) ∅ 0 [])).
  destruct (categorize_loop_spec rm workspace_id
              (iter o (all_discovered_nodes d)) (disc_state d) ∅ [] [])
    as (_ & _ & _ & _ & Hcache).
  { apply NoDup_iter. }
  { intros x _. split; [set_solver|by intros ?%elem_of_nil]. }
  { constructor. }
  { set_solver. }
  { set_solver. }
  unfold _categorize_dependencies.
  destruct (categorize_loop _ _ _ _ _ _ _) as [[[api manual] failed] st'].
  simpl in Hcache. cbn [api_migratable].
  destruct (collect_node_details_cached rm workspace_id (iter o api) st' ∅)
    as [Hst Hl].
  { intros x Hx. apply Hcache. by apply elem_of_iter in Hx. }
  destruct (collect_node_details rm workspace_id (iter o api) st' ∅)
    as [details st'']. simpl in *. subst st''.
  split; [done|]. split; [done|]. split.
  - apply set_eq. intros x. rewrite elem_of_dom, Hl.
    destruct (decide (x ∈ iter o api)) as [Hin|Hnin].
    + apply elem_of_iter in Hin. split; [done|]. intros _.
      destruct (Hcache x Hin) as (n & -> & _). eauto.
    + rewrite lookup_empty. split; [by intros [? ?]|].
      intros Hin. by apply (elem_of_iter o) in Hin.
  - intros id n. rewrite Hl. case_decide as Hin; [|by rewrite lookup_empty].
    apply elem_of_iter in Hin. destruct (Hcache id Hin) as (n' & Hn' & Ht).
    rewrite Hn'. by intros [= <-].
Qed.

(** *** Closure under a snapshot *)

Lemma elem_of_frontier_dependencies (snap : string → string → response)
    (workspace_id : string) (nodes : gset string) (x : string) :
  x ∈ frontier_dependencies snap workspace_id nodes
  ↔ ∃ y, y ∈ nodes ∧ x ∈ node_dependencies snap workspace_id y.
Proof.
  unfold frontier_dependencies. rewrite elem_of_union_list. split.
  - intros (X & HX & Hx). apply list_elem_of_fmap in HX as (y & -> & Hy).
    exists y. split; [by apply elem_of_elements|done].
  - intros (y & Hy & Hx). exists (node_dependencies snap workspace_id y).
    split; [|done]. by apply list_elem_of_fmap_2, elem_of_elements.
Qed.

Lemma resolve_loop_closed (fuel : nat) (o : set_order)
    (snap : string → string → response) (workspace_id : string)
    (d : discovery) :
  cache_ok snap workspace_id (disc_state d) →
  processed_nodes d ⊆ all_discovered_nodes d →
  (∀ x, x ∈ processed_nodes d →
     node_dependencies snap workspace_id x ⊆ all_discovered_nodes d) →
  let d' := resolve_loop fuel o (λ _, snap) workspace_id d in
  (∀ x, x ∈ processed_nodes d' →
     node_dependencies snap workspace_id x ⊆ all_discovered_nodes d')
  ∧ (current_depth d' < current_depth d + fuel →
     all_discovered_nodes d' ⊆ processed_nodes d').
Proof.
  revert d. induction fuel as [|fuel IH]; intros d Hok Hsub Hdeps d'; subst d'.
  { simpl. split; [done|lia]. }
  cbn [resolve_loop]. case_decide as Hempty.
  { split; [done|]. intros _. set_solver. }
  destruct (process_nodes_snapshot snap workspace_id
              (iter o (all_discovered_nodes d ∖ processed_nodes d))
              (disc_state d) ∅ (processed_nodes d) (processed_trace d) Hok)
    as [Hok' Hnew].
  destruct (process_nodes_trace (λ _, snap) workspace_id
              (iter o (all_discovered_nodes d ∖ processed_nodes d))
              (disc_state d) ∅ (processed_nodes d) (processed_trace d))
    as [Hproc _].
  destruct (process_nodes _ _ _ _ _ _ _) as [[[st' new_deps] processed] trace].
  simpl in Hok', Hnew, Hproc.
  assert (new_deps = frontier_dependencies snap workspace_id
                       (all_discovered_nodes d ∖ processed_nodes d)) as ->.
  { rewrite Hnew, union_list_iter. unfold frontier_dependencies. set_solver. }
  assert (∀ x, x ∈ processed ↔ x ∈ all_discovered_nodes d) as Hall.
  { intros x. rewrite Hproc, elem_of_union, elem_of_list_to_set, elem_of_iter.
    destruct (decide (x ∈ processed_nodes d)); set_solver. }
  assert (∀ x, x ∈ processed →
            node_dependencies snap workspace_id x
            ⊆ all_discovered_nodes d
              ∪ frontier_dependencies snap workspace_id
                  (all_discovered_nodes d ∖ processed_nodes d)) as Hdeps'.
  { intros x Hx y Hy. apply Hall in Hx.
    destruct (decide (x ∈ processed_nodes d)) as [Hp|Hnp].
    - apply elem_of_union_l. by apply (Hdeps x Hp).
    - apply elem_of_union_r, elem_of_frontier_dependencies.
      exists x. split; [set_solver|done]. }
  case_decide as Hnone.
  { simpl. split.
    - intros x Hx y Hy. specialize (Hdeps' x Hx y Hy).
      rewrite Hnone in Hdeps'. set_solver.
    - intros _ x Hx. by apply Hall. }
  destruct (IH (Discovery st'
                  (all_discovered_nodes d
                   ∪ frontier_dependencies snap workspace_id
                       (all_discovered_nodes d ∖ processed_nodes d))
                  processed (S (current_depth d)) trace))
    as [H1 H2]; simpl; [done| |done|].
  { intros x Hx. apply elem_of_union_l. by apply Hall. }
  split; [done|]. intros Hlt. apply H2. simpl. lia.
Qed.

(** X9. Under a fixed snapshot (and a cache consistent with it), when
    the resolver stops before reaching the depth bound the discovered set
    is closed: every reference that discovery follows from a discovered
    node is itself discovered. *)
Theorem resolve_all_dependencies_closed (o : set_order)
    (snap : string → string → response) (workspace_id : string)
    (initial_nodes : list scalar) (max_depth : nat) (st : migration) :
  cache_ok snap workspace_id st →
  let r := (_resolve_all_dependencies o (λ _, snap) workspace_id initial_nodes
              max_depth st).1 in
  search_depth_used r < max_depth →
  ∀ x y, x ∈ all_discovered r → y ∈ node_dependencies snap workspace_id x →
         y ∈ all_discovered r.
Proof.
  intros Hok r Hdepth x y Hx Hy.
  destruct (resolve_loop_closed max_depth o snap workspace_id
              (Discovery st (list_to_set (py_str <$> initial_nodes)) ∅ 0 []))
    as [Hclosed Hdone]; simpl; [done|set_solver|set_solver|].
  assert (search_depth_used r
          = current_depth (resolve_loop max_depth o (λ _, snap) workspace_id
              (Discovery st (list_to_set (py_str <$> initial_nodes)) ∅ 0 []))
          ∧ all_discovered r
            = all_discovered_nodes (resolve_loop max_depth o (λ _, snap)
                workspace_id
                (Discovery st (list_to_set (py_str <$> initial_nodes)) ∅ 0 [])))
    as [Hd Heq].
  { unfold r, _resolve_all_dependencies.
    by destruct (_categorize_dependencies _ _ _ _ _) as [[[? ?] ?] ?]. }
  rewrite Heq in Hx |- *. rewrite Hd in Hdepth.
  apply (Hclosed x); [|done]. apply Hdone; [|done]. simpl. lia.
Qed.

(** On the example snapshot the resolver stops after two rounds, so the
    discovered set is closed. *)
Lemma resolve_all_dependencies_closed_witness :
  let r := (_resolve_all_dependencies elements_order snapshot_remote "7"
              [SStr id_link_a] 10 new_migration).1 in
  ∀ x y, x ∈ all_discovered r →
         y ∈ node_dependencies snapshot_response "7" x →
         y ∈ all_discovered r.
Proof.
  apply (resolve_all_dependencies_closed elements_order snapshot_response "7"
           [SStr id_link_a] 10 new_migration (cache_ok_new _ _)).
  vm_compute. lia.
Defined.

(** ** The creation scheduler, continued *)

Lemma create_node_via_api_created (w : world) (node_id : string)
    (node_data : node) (preds : list scalar) (dry_run : bool) (st : creator) :
  let r := create_node_via_api w node_id node_data preds dry_run st in
  length (created_nodes r.2)
  = (length (created_nodes st)
     + (if dry_run then 0 else if r.1 then 1 else 0))%nat.
Proof.
  destruct st as [m cn ce hs hf th calls].
  unfold create_node_via_api; simpl. destruct dry_run; simpl; [lia|].
  destruct (w (length calls) node_id preds) as [status|msg|new_id hp cp]; simpl;
    try lia.
  destruct (scalar_truthy new_id); simpl; [|lia].
  unfold configure_created_node; simpl.
  destruct th, hp, cp; simpl; rewrite ?length_app; simpl; lia.
Qed.

Lemma create_ready_nodes_created (w : world) (all_nodes : gmap string node)
    (dependencies : gmap string (list string)) (dry_run : bool)
    (ready : list string) (st : creator) (remaining : gset string) (rs : nat) :
  let r := create_ready_nodes w all_nodes dependencies dry_run ready st
             remaining rs in
  rs ≤ r.2
  ∧ length (created_nodes r.1.1)
    = (length (created_nodes st) + (if dry_run then 0 else r.2 - rs))%nat.
Proof.
  revert st remaining rs.
  induction ready as [|n rest IH]; intros st remaining rs r; subst r.
  { simpl. split; [lia|]. destruct dry_run; lia. }
  cbn [create_ready_nodes]. destruct (all_nodes !! n) as [nd|].
  2:{ simpl. split; [lia|]. destruct dry_run; lia. }
  pose proof (create_node_via_api_created w n nd
    (mapped_deps (node_id_mapping st) (deps_of dependencies n)) dry_run st)
    as Hc.
  destruct (create_node_via_api w n nd _ dry_run st) as [result st1].
  simpl in Hc.
  destruct (IH st1 (remaining ∖ {[n]}) (if result then S rs else rs))
    as [Hle Hlen].
  rewrite Hlen, Hc. destruct dry_run, result; split; lia.
Qed.

Lemma creation_loop_count (fuel : nat) (o : set_order) (w : world)
    (all_nodes : gmap string node) (dependencies : gmap string (list string))
    (dry_run : bool) (st : creator) (remaining : gset string) (cc : nat) :
  remaining ⊆ dom all_nodes →
  cc = length (filter (λ c, call_result c = true) (api_calls st)) →
  length (created_nodes st) = (if dry_run then 0 else cc) →
  let r := creation_loop fuel o w all_nodes dependencies dry_run st
             remaining cc in
  r.2 = length (filter (λ c, call_result c = true) (api_calls r.1.1))
  ∧ length (created_nodes r.1.1) = (if dry_run then 0 else r.2).
Proof.
  revert st remaining cc.
  induction fuel as [|fuel IH]; intros st remaining cc Hsub Hcc Hcn r; subst r;
    [done|].
  cbn [creation_loop]. case_decide as Hempty; [done|].
  destruct (select_round_nodes_facts o dependencies (node_id_mapping st)
              remaining Hempty) as (_ & _ & Hsel_in).
  destruct (create_ready_nodes_calls w all_nodes dependencies dry_run
              (select_round_nodes o dependencies (node_id_mapping st) remaining)
              st remaining 0)
    as (Hrem & _ & calls & Hc1 & _ & Hc3 & _).
  { intros n Hn. by apply Hsub, Hsel_in. }
  destruct (create_ready_nodes_created w all_nodes dependencies dry_run
              (select_round_nodes o dependencies (node_id_mapping st) remaining)
              st remaining 0) as [_ Hlen].
  fold (creation_round o w all_nodes dependencies dry_run st remaining) in *.
  destruct (creation_round o w all_nodes dependencies dry_run st remaining)
    as [[st1 rem1] rs1]. simpl in *.
  assert ((cc + rs1)%nat
          = length (filter (λ c, call_result c = true) (api_calls st1))) as Hcc'.
  { rewrite Hc1, filter_app, length_app. lia. }
  assert (length (created_nodes st1) = (if dry_run then 0 else (cc + rs1)%nat))
    as Hcn'.
  { rewrite Hlen, Hcn. destruct dry_run; lia. }
  case_decide; [done|]. apply IH; [|done|done]. rewrite Hrem. set_solver.
Qed.

(** X10. The count the scheduler returns is the number of creation calls
    that returned a truthy result; it never exceeds the number of nodes.
    In a live run it is also the number of [created_nodes] records; in a
    dry run it is the number of nodes, and no record is written. *)
Theorem created_count_spec (o : set_order) (w : world)
    (all_nodes : gmap string node) (dependencies : gmap string (list string))
    (dry_run : bool) :
  let r := create_nodes_in_dependency_order o w all_nodes dependencies dry_run
             new_creator in
  r.2 = length (filter (λ c, call_result c = true) (api_calls r.1))
  ∧ r.2 ≤ size all_nodes
  ∧ (dry_run = false → r.2 = length (created_nodes r.1))
  ∧ (dry_run = true → r.2 = size all_nodes ∧ created_nodes r.1 = []).
Proof.
  intros r.
  destruct (creation_loop_count (size all_nodes + 10) o w all_nodes
              dependencies dry_run new_creator (dom all_nodes) 0)
    as [Hcount Hcn]; [done|done|by destruct dry_run|].
  destruct (creation_loop_inv (size all_nodes + 10) o w all_nodes dependencies
              dry_run new_creator (dom all_nodes) 0
              (sched_inv_new all_nodes dry_run))
    as [Hinv Hstop]; [rewrite size_dom; lia|].
  assert (r = ((creation_loop (size all_nodes + 10) o w all_nodes dependencies
                  dry_run new_creator (dom all_nodes) 0).1.1,
               (creation_loop (size all_nodes + 10) o w all_nodes dependencies
                  dry_run new_creator (dom all_nodes) 0).2)) as Hr.
  { unfold r, create_nodes_in_dependency_order.
    by destruct (creation_loop _ _ _ _ _ _ _ _ _) as [[? ?] ?]. }
  set (rem := (creation_loop (size all_nodes + 10) o w all_nodes dependencies
                 dry_run new_creator (dom all_nodes) 0).1.2) in *.
  rewrite Hr. simpl. clear Hr r.
  set (st := (creation_loop (size all_nodes + 10) o w all_nodes dependencies
                dry_run new_creator (dom all_nodes) 0).1.1) in *.
  set (count := (creation_loop (size all_nodes + 10) o w all_nodes dependencies
                   dry_run new_creator (dom all_nodes) 0).2) in *.
  clearbody st rem count.
  destruct Hinv as [Hnd Hatt Hrem Hsub Hmap Herr Hth Hcalls].
  assert (size (dom all_nodes) = size all_nodes) as Hsd by apply size_dom.
  assert (size (list_to_set (attempted st) : gset string)
          = length (attempted st)) as Hsl by (by apply size_list_to_set).
  assert (length (attempted st) ≤ size all_nodes) as Hbound.
  { rewrite <-Hsd, <-Hsl.
    apply subseteq_size. intros x Hx%elem_of_list_to_set. by apply Hatt. }
  assert (length (filter (λ c, call_result c = true) (api_calls st))
          ≤ length (attempted st)) as Hfl.
  { unfold attempted. rewrite length_fmap. apply length_filter. }
  split; [done|]. split; [lia|]. split; [by intros ->|].
  intros ->. split; [|by apply nil_length_inv].
  assert (∀ c, c ∈ api_calls st → call_result c = true) as Hall.
  { intros c Hc. destruct (Hcalls c Hc) as (_ & _ & -> & Hdry).
    by rewrite (proj2 Hdry eq_refl). }
  assert (rem = ∅) as ->.
  { destruct (decide (rem = ∅)) as [|Hne]; [done|].
    destruct (Hstop Hne) as (c & Hc & Hres). by rewrite (Hall c Hc) in Hres. }
  assert (filter (λ c, call_result c = true) (api_calls st) = api_calls st)
    as Hfilter.
  { clear -Hall. induction (api_calls st) as [|c l IH]; [done|].
    rewrite filter_cons_True by (apply Hall; left).
    f_equal. apply IH. intros c' Hc'. apply Hall. by right. }
  rewrite Hcount, Hfilter.
  assert (length (api_calls st) = length (attempted st)) as ->
    by (unfold attempted; by rewrite length_fmap).
  rewrite <-Hsd, <-Hsl. f_equal. apply set_eq. intros x.
  rewrite elem_of_list_to_set. split.
  - intros Hx. by apply Hatt.
  - intros Hx. destruct (Hrem x Hx); [done|set_solver].
Qed.

Lemma create_ready_nodes_outcomes (w : world) (all_nodes : gmap string node)
    (dependencies : gmap string (list string)) (dry_run : bool)
    (ready : list string) (st : creator) (remaining : gset string) (rs : nat)
    (c : api_call) :
  c ∈ api_calls (create_ready_nodes w all_nodes dependencies dry_run ready st
                   remaining rs).1.1 →
  c ∈ api_calls st
  ∨ ∃ k, call_outcome c
         = if dry_run then None
           else Some (w k (call_node_id c) (call_predecessor_ids c)).
Proof.
  revert st remaining rs.
  induction ready as [|n rest IH]; intros st remaining rs; [by left|].
  cbn [create_ready_nodes]. destruct (all_nodes !! n) as [nd|]; [|by left].
  pose proof (create_node_via_api_effect w n nd
    (mapped_deps (node_id_mapping st) (deps_of dependencies n)) dry_run st)
    as (_ & Hcalls & _).
  destruct (create_node_via_api w n nd _ dry_run st) as [result st1].
  simpl in Hcalls. intros Hc. apply IH in Hc as [Hc|Hc]; [|by right].
  rewrite Hcalls in Hc. apply elem_of_app in Hc as [Hc|Hc]; [by left|].
  apply list_elem_of_singleton in Hc as ->. right. simpl.
  exists (length (api_calls st)). by destruct dry_run.
Qed.

Lemma gset_min_rank (rank : string → nat) (s : gset string) :
  s ≠ ∅ → ∃ n, n ∈ s ∧ ∀ n', n' ∈ s → rank n ≤ rank n'.
Proof.
  intros Hne.
  assert (rank <$> elements s ≠ []) as Hl.
  { intros Hnil%fmap_nil_inv. by apply elements_empty_inv, leibniz_equiv in Hnil. }
  destruct (py_min_spec _ Hl) as [Hin Hle].
  apply list_elem_of_fmap in Hin as (n & Hn & Hnin). exists n.
  split; [by apply elem_of_elements|]. intros n' Hn'. rewrite <-Hn.
  apply Hle, list_elem_of_fmap_2. by apply elem_of_elements.
Qed.

Lemma creation_loop_complete (fuel : nat) (o : set_order) (w : world)
    (all_nodes : gmap string node) (dependencies : gmap string (list string))
    (dry_run : bool) (rank : string → nat) (st : creator)
    (remaining : gset string) (cc : nat) :
  (∀ n d, d ∈ deps_of dependencies n → rank d < rank n) →
  (∀ n d, n ∈ dom all_nodes → d ∈ deps_of dependencies n → d ∈ dom all_nodes) →
  always_creates dry_run w →
  sched_inv all_nodes dry_run st remaining →
  (∀ c, c ∈ api_calls st →
     (call_effect true (call_outcome c)).1.1 = true
     ∧ complete_call dependencies c) →
  ∀ c, c ∈ api_calls (creation_loop fuel o w all_nodes dependencies dry_run st
                        remaining cc).1.1 →
       complete_call dependencies c.
Proof.
  intros Hrank Hclosed Hcreates. revert st remaining cc.
  induction fuel as [|fuel IH]; intros st remaining cc Hinv Hold c.
  { simpl. intros Hc. by apply Hold. }
  cbn [creation_loop]. case_decide as Hempty; [intros Hc; by apply Hold|].
  (* a remaining node of least rank is ready *)
  assert (find_ready_nodes o dependencies (node_id_mapping st) remaining ≠ [])
    as Hready.
  { destruct (gset_min_rank rank remaining Hempty) as (n0 & Hn0 & Hmin).
    assert (n0 ∈ find_ready_nodes o dependencies (node_id_mapping st) remaining)
      as Hin; [|by intros Hnil; rewrite Hnil in Hin; apply elem_of_nil in Hin].
    apply find_ready_nodes_spec. split; [done|]. intros d Hd.
    assert (d ∈ dom all_nodes) as Hdom.
    { eapply Hclosed; [|done]. by apply (inv_remaining_sub _ _ _ _ Hinv). }
    destruct (inv_remaining _ _ _ _ Hinv d Hdom) as [Hatt|Hrem].
    - apply list_elem_of_fmap in Hatt as (c0 & -> & Hc0).
      destruct (inv_calls _ _ _ _ Hinv c0 Hc0) as (H1 & _).
      rewrite (inv_hash_keys _ _ _ _ Hinv) in H1.
      apply elem_of_dom, H1. by apply Hold.
    - specialize (Hmin d Hrem). specialize (Hrank n0 d Hd). lia. }
  pose proof (select_round_nodes_ready o dependencies (node_id_mapping st)
                remaining Hready) as Hsel.
  destruct (select_round_nodes_facts o dependencies (node_id_mapping st)
              remaining Hempty) as (_ & Hsel_nd & Hsel_in).
  pose proof (create_ready_nodes_inv w all_nodes dependencies dry_run _ st
                remaining 0 Hsel_nd Hsel_in Hinv) as Hinv'.
  destruct (create_ready_nodes_calls w all_nodes dependencies dry_run
              (select_round_nodes o dependencies (node_id_mapping st) remaining)
              st remaining 0)
    as (_ & _ & calls & Hc1 & Hc2 & _ & Hc4).
  { intros n Hn. by apply (inv_remaining_sub _ _ _ _ Hinv), Hsel_in. }
  pose proof (λ c, create_ready_nodes_outcomes w all_nodes dependencies dry_run
                (select_round_nodes o dependencies (node_id_mapping st) remaining)
                st remaining 0 c) as Hout.
  fold (creation_round o w all_nodes dependencies dry_run st remaining) in *.
  destruct (creation_round o w all_nodes dependencies dry_run st remaining)
    as [[st1 rem1] rs1]. simpl in *.
  assert (∀ c, c ∈ api_calls st1 →
            (call_effect true (call_outcome c)).1.1 = true
            ∧ complete_call dependencies c) as Hnew.
  { intros c' Hc'. split.
    - destruct (Hout c' Hc') as [Hc0|[k Hk]]; [by apply Hold|]. rewrite Hk.
      destruct Hcreates as [->|Hw]; [done|]. destruct dry_run; [done|].
      destruct (Hw k (call_node_id c') (call_predecessor_ids c'))
        as (id & hp & cp & -> & Hid). simpl. by rewrite Hid.
    - rewrite Hc1 in Hc'. apply elem_of_app in Hc' as [Hc'|Hc'];
        [by apply Hold|].
      destruct (Hc4 c' Hc') as [Hpreds Hdom].
      assert (∀ d, d ∈ deps_of dependencies (call_node_id c') →
                d ∈ dom (call_mapping c')) as Hall.
      { intros d Hd. apply Hdom, elem_of_dom.
        assert (call_node_id c'
                ∈ find_ready_nodes o dependencies (node_id_mapping st) remaining)
          as Hin.
        { rewrite <-Hsel, <-Hc2. by apply list_elem_of_fmap_2. }
        apply find_ready_nodes_spec in Hin as [_ Hin]. by apply Hin. }
      split; [done|]. rewrite Hpreds. apply length_omap_all_Some.
      intros d Hd. by apply elem_of_dom, Hall. }
  case_decide; [intros Hc; by apply Hnew|]. by apply IH.
Qed.

(** X11. Dependency order on acyclic dependencies: when the dependency
    lists are acyclic and stay within the node set, and every creation
    request yields an id (a dry run, or a platform that always answers with
    one), every node is created after all its dependencies: at each call
    all dependencies of the node are already in the mapping and the call
    passes one predecessor per dependency. *)
Theorem acyclic_creation_order (o : set_order) (w : world)
    (all_nodes : gmap string node) (dependencies : gmap string (list string))
    (dry_run : bool) (rank : string → nat) :
  (∀ n d, d ∈ deps_of dependencies n → rank d < rank n) →
  (∀ n d, n ∈ dom all_nodes → d ∈ deps_of dependencies n → d ∈ dom all_nodes) →
  always_creates dry_run w →
  let st := (create_nodes_in_dependency_order o w all_nodes dependencies
               dry_run new_creator).1 in
  ∀ c, c ∈ api_calls st →
    (∀ d, d ∈ deps_of dependencies (call_node_id c) → d ∈ dom (call_mapping c))
    ∧ length (call_predecessor_ids c)
      = length (deps_of dependencies (call_node_id c)).
Proof.
  intros Hrank Hclosed Hcreates st c Hc.
  apply (creation_loop_complete (size all_nodes + 10) o w all_nodes
           dependencies dry_run rank new_creator (dom all_nodes) 0);
    try done.
  - apply sched_inv_new.
  - intros c' Hc'. by apply elem_of_nil in Hc'.
  - unfold st, create_nodes_in_dependency_order in Hc.
    by destruct (creation_loop _ _ _ _ _ _ _ _ _) as [[? ?] ?].
Qed.

Lemma scenario_deps_of (n d : string) :
  d ∈ deps_of scenario_dependencies n →
  n = "S_CUSTOMER_CURRENT" ∧ d = "H_CUSTOMER".
Proof.
  rewrite scenario_dependencies_eq. unfold deps_of.
  destruct (decide (n = "H_CUSTOMER")) as [->|Hh].
  { rewrite lookup_insert_eq. simpl. by intros ?%elem_of_nil. }
  rewrite lookup_insert_ne by done.
  destruct (decide (n = "S_CUSTOMER_CURRENT")) as [->|Hs].
  - rewrite lookup_singleton_eq. simpl. by intros ->%list_elem_of_singleton.
  - rewrite lookup_singleton_ne by done. simpl. by intros ?%elem_of_nil.
Qed.

(** The order theorem applied to the dry run of the scenario. *)
Lemma acyclic_creation_order_witness :
  let st := (create_nodes_in_dependency_order elements_order rejecting_world
               scenario_nodes scenario_dependencies true new_creator).1 in
  ∀ c, c ∈ api_calls st →
    length (call_predecessor_ids c)
    = length (deps_of scenario_dependencies (call_node_id c)).
Proof.
  intros st c Hc.
  apply (acyclic_creation_order elements_order rejecting_world scenario_nodes
           scenario_dependencies true scenario_rank); [| | |exact Hc].
  - intros n d [-> ->]%scenario_deps_of. vm_compute. lia.
  - intros n d _ [-> ->]%scenario_deps_of.
    apply elem_of_dom. eexists. vm_compute. reflexivity.
  - left. reflexivity.
Defined.

(** ** The metadata updater *)

Lemma update_node_metadata_effect (uw : update_world) (new_node_id : scalar)
    (nd : node) (m : idmap) (dry_run : bool) (st : updater) :
  let r := update_node_metadata uw new_node_id nd m dry_run st in
  (length (update_errors r.2)
   = length (update_errors st) + (if r.1 then 0 else 1))%nat
  ∧ (length (failed_updates r.2)
     = length (failed_updates st) + (if r.1 then 0 else 1))%nat
  ∧ (∀ err, err ∈ update_errors st → err ∈ update_errors r.2)
  ∧ length (update_successes st) ≤ length (update_successes r.2)
  ∧ length (update_successes r.2)
    ≤ length (update_successes st) + (if r.1 then 1 else 0)
  ∧ (put_log r.2 = put_log st
     ∨ ∃ md, build_proper_metadata nd m = Some md
             ∧ put_log r.2 = put_log st ++ [(new_node_id, md)])
  ∧ (dry_run = true → r = (true, st)).
Proof.
  unfold update_node_metadata. destruct dry_run; simpl.
  { repeat split; try done; try lia. by left. }
  destruct (build_proper_metadata nd m) as [md|] eqn:Hmd; simpl.
  2:{ repeat split; try done; try lia. by left. }
  destruct (uw _ _ _) as [status| |msg]; [case_bool_decide|..]; simpl;
    rewrite ?length_app; simpl;
    (split; [lia|]); (split; [lia|]);
    (split; [intros err Herr; try done; apply elem_of_app; by left|]);
    (split; [lia|]); (split; [lia|]); (split; [right; by exists md|done]).
Qed.

Lemma update_all_loop_spec (uw : update_world) (created : list created_entry)
    (original_nodes : gmap string node) (m : idmap) (dry_run : bool)
    (st : updater) (cnt : nat) :
  let r := update_all_loop uw created original_nodes m dry_run st cnt in
  (r.1 + length (update_errors r.2)
   = cnt + length (update_errors st) + length created)%nat
  ∧ (length (failed_updates r.2) + length (update_errors st)
     = length (failed_updates st) + length (update_errors r.2))%nat
  ∧ length (update_successes r.2) + cnt ≤ r.1 + length (update_successes st)
  ∧ (∀ err, err ∈ update_errors st → err ∈ update_errors r.2)
  ∧ (∀ e, e ∈ created → original_found original_nodes e = false →
       UpdateError (ce_new_id e) (ce_name e) StatusMissingData
       ∈ update_errors r.2)
  ∧ (∀ p, p ∈ put_log r.2 →
       p ∈ put_log st
       ∨ ∃ e nd, e ∈ created ∧ original_nodes !! ce_original_id e = Some nd
                 ∧ p.1 = ce_new_id e ∧ build_proper_metadata nd m = Some p.2)
  ∧ (dry_run = true →
     put_log r.2 = put_log st ∧ update_successes r.2 = update_successes st
     ∧ r.1 = (cnt + length (filter (λ e, original_found original_nodes e = true)
                              created))%nat).
Proof.
  revert st cnt.
  induction created as [|e rest IH]; intros st cnt r; subst r.
  { simpl. repeat split; try done; try lia.
    - intros e []%elem_of_nil.
    - by left. }
  cbn [update_all_loop].
  assert (length (filter (λ e, original_found original_nodes e = true)
                    (e :: rest))
          = ((if original_found original_nodes e then 1 else 0)
             + length (filter (λ e, original_found original_nodes e = true)
                         rest))%nat) as Hfilter.
  { rewrite filter_cons.
    destruct (original_found original_nodes e);
      [by rewrite decide_True|by rewrite decide_False]. }
  rewrite Hfilter. clear Hfilter.
  assert (∀ st', let r := update_all_loop uw rest original_nodes m dry_run
                            (record_update_failure st' (ce_new_id e) (ce_name e)
                               StatusMissingData false false) cnt in
          st' = st → original_found original_nodes e = false →
          (r.1 + length (update_errors r.2)
           = cnt + length (update_errors st) + length (e :: rest))%nat
          ∧ (length (failed_updates r.2) + length (update_errors st)
             = length (failed_updates st) + length (update_errors r.2))%nat
          ∧ length (update_successes r.2) + cnt
            ≤ r.1 + length (update_successes st)
          ∧ (∀ err, err ∈ update_errors st → err ∈ update_errors r.2)
          ∧ (∀ e', e' ∈ e :: rest → original_found original_nodes e' = false →
               UpdateError (ce_new_id e') (ce_name e') StatusMissingData
               ∈ update_errors r.2)
          ∧ (∀ p, p ∈ put_log r.2 →
               p ∈ put_log st
               ∨ ∃ e' nd, e' ∈ e :: rest
                          ∧ original_nodes !! ce_original_id e' = Some nd
                          ∧ p.1 = ce_new_id e'
                          ∧ build_proper_metadata nd m = Some p.2)
          ∧ (dry_run = true →
             put_log r.2 = put_log st
             ∧ update_successes r.2 = update_successes st
             ∧ r.1 = (cnt + (0 + length (filter
                               (λ e, original_found original_nodes e = true)
                               rest)))%nat)) as Hmissing.
  { intros st' r -> Hnf. subst r.
    destruct (IH (record_update_failure st (ce_new_id e) (ce_name e)
                    StatusMissingData false false) cnt)
      as (H1 & H2 & H3 & H4 & H5 & H6 & H7). simpl in *.
    rewrite !length_app in *. simpl in *.
    split; [lia|]. split; [lia|]. split; [lia|]. split.
    { intros err Herr. apply H4, elem_of_app. by left. }
    split.
    { intros e' [->|He']%elem_of_cons Hf; [|by apply H5].
      apply H4, elem_of_app. right. left. }
    split; [|done].
    intros p Hp. destruct (H6 p Hp) as [?|(e' & nd & He' & ?)]; [by left|].
    right. exists e', nd. split; [by right|done]. }
  assert (original_found original_nodes e
          = match original_nodes !! ce_original_id e with
            | Some n => node_truthy n
            | None => false
            end) as Hfound by done.
  destruct (original_nodes !! ce_original_id e) as [nd|] eqn:Hnd.
  2:{ rewrite Hfound. by apply (Hmissing st eq_refl). }
  destruct (node_truthy nd) eqn:Ht.
  2:{ rewrite Hfound. by apply (Hmissing st eq_refl). }
  rewrite Hfound.
  destruct (update_node_metadata_effect uw (ce_new_id e) nd m dry_run st)
    as (E1 & E2 & E3 & E4 & E5 & E6 & E7).
  destruct (update_node_metadata uw (ce_new_id e) nd m dry_run st)
    as [success st1]. simpl in *.
  destruct (IH st1 (if success then S cnt else cnt))
    as (H1 & H2 & H3 & H4 & H5 & H6 & H7).
  split; [destruct success; lia|]. split; [destruct success; lia|].
  split; [destruct success; lia|]. split; [by eauto|]. split.
  { intros e' [->|He']%elem_of_cons Hf; [|by apply H5].
    congruence. }
  split.
  { intros p Hp. destruct (H6 p Hp) as [Hp1|(e' & nd' & He' & ?)].
    - destruct E6 as [E6|(md & Hmd & E6)]; rewrite E6 in Hp1; [by left|].
      apply elem_of_app in Hp1 as [? | ->%list_elem_of_singleton]; [by left|].
      right. exists e, nd. split; [left|done].
    - right. exists e', nd'. split; [by right|done]. }
  intros Hdry. specialize (E7 Hdry). injection E7 as -> ->.
  destruct (H7 Hdry) as (? & ? & ->). simpl. split; [done|]. split; [done|lia].
Qed.

Lemma update_all_loop_put_log_length (uw : update_world)
    (created : list created_entry) (original_nodes : gmap string node)
    (m : idmap) (dry_run : bool) (st : updater) (cnt : nat) :
  length (put_log (update_all_loop uw created original_nodes m dry_run st cnt).2)
  ≤ length (put_log st) + length created.
Proof.
  revert st cnt. induction created as [|e rest IH]; intros st cnt.
  { simpl. lia. }
  cbn [update_all_loop length].
  pose proof (IH (record_update_failure st (ce_new_id e) (ce_name e)
                    StatusMissingData false false) cnt) as Hmissing.
  simpl in Hmissing.
  destruct (original_nodes !! ce_original_id e) as [nd|]; [|lia].
  destruct (node_truthy nd); [|lia].
  destruct (update_node_metadata_effect uw (ce_new_id e) nd m dry_run st)
    as (_ & _ & _ & _ & _ & E6 & _).
  destruct (update_node_metadata uw (ce_new_id e) nd m dry_run st)
    as [success st1]. simpl in E6.
  specialize (IH st1 (if success then S cnt else cnt)).
  destruct E6 as [E6|(md & _ & E6)]; rewrite E6 in IH;
    rewrite ?length_app in IH; simpl in IH; lia.
Qed.

(** X12. Updating the created nodes, from a fresh updater: every created
    node is either counted as updated or has one error record, and the two
    failure lists grow together; a node whose original data is missing or
    empty gets a [missing_data] error, in a dry run too; every [PUT] sent
    carries the new id of a created node and the remapped metadata of its
    original data; success records never outnumber the count (a node
    without columns is counted although nothing is sent); a dry run sends
    nothing and counts the nodes whose original data is found. *)
Theorem update_all_nodes_accounting (uw : update_world)
    (created : list created_entry) (original_nodes : gmap string node)
    (m : idmap) (dry_run : bool) :
  let r := update_all_nodes uw created original_nodes m dry_run new_updater in
  (r.1 + length (update_errors r.2) = length created)%nat
  ∧ length (failed_updates r.2) = length (update_errors r.2)
  ∧ length (update_successes r.2) ≤ r.1
  ∧ length (put_log r.2) ≤ length created
  ∧ (∀ e, e ∈ created → original_found original_nodes e = false →
       UpdateError (ce_new_id e) (ce_name e) StatusMissingData
       ∈ update_errors r.2)
  ∧ (∀ p, p ∈ put_log r.2 →
       ∃ e nd, e ∈ created ∧ original_nodes !! ce_original_id e = Some nd
               ∧ p.1 = ce_new_id e ∧ build_proper_metadata nd m = Some p.2)
  ∧ (dry_run = true →
     put_log r.2 = [] ∧ update_successes r.2 = []
     ∧ r.1 = length (filter (λ e, original_found original_nodes e = true)
                       created)).
Proof.
  intros r. subst r. unfold update_all_nodes.
  destruct (update_all_loop_spec uw created original_nodes m dry_run
              new_updater 0) as (H1 & H2 & H3 & H4 & H5 & H6 & H7).
  simpl in *. split; [lia|]. split; [lia|]. split; [lia|].
  split; [|split; [done|split; [|done]]].
  - pose proof (update_all_loop_put_log_length uw created original_nodes m
                  dry_run new_updater 0) as Hlen.
    simpl in Hlen. lia.
  - intros p Hp. destruct (H6 p Hp) as [[]%elem_of_nil|?]; done.
Qed.
